(** * Grow a Garden notification system: the monitor of [gag_seeds_client.py]

    A shallow embedding of class [GAGItemsMonitor]: the inventory fetcher
    ([get_all_items_data]), the stock-change detector ([check_stock_changes]),
    the notifier ([send_discord_notification]), the aggregate part of the
    display ([display_all_items]) and the auto-refresh wait of [run].

    Python dictionaries whose iteration order is observed (the snapshot) are
    association lists in insertion order; dictionaries that are only looked up
    ([current_stock], [previous_stock]) are [gmap]s.  Console output and HTTP
    traffic are recorded in a trace; exceptions are explicit results. *)

From Stdlib Require Import ZArith Ascii String.
From stdpp Require Import base strings gmap list.

Local Open Scope Z_scope.
#[local] Set Warnings "-clear-no-such-hyp,-register-all".

(** ** Data model *)

(** One JSON item record.  The code reads the two keys with [dict.get], so
    either may be missing. *)
Record Item := mkItem {
  name : option string;
  quantity : option Z
}.

(** [all_items_data]: category -> items, in [dict.items()] order. *)
Definition Snapshot := list (string * list Item).

(** The [embed] of a webhook message: the four values interpolated into it.
    The constant title, colour and footer and the timestamp are left out; the
    category is sent as [category.title()]. *)
Record Embed := mkEmbed {
  embed_item_name : string;
  embed_category : string;
  embed_quantity : Z;
  embed_previous_quantity : Z
}.

Inductive exn := RequestException | JSONDecodeError.

(** Console lines, one constructor per [print] of the modelled methods. *)
Inductive message :=
| MsgAlert (watched_item : string) (current_quantity : Z) (category : string)
| MsgNotificationSent (item_name category : string)
| MsgNotificationFailed (status_code : Z)
| MsgNotificationError (e : exn)
| MsgFetching (category : string)
| MsgFetchHttpError (category : string) (status_code : Z)
| MsgFetchNetworkError (category : string)
| MsgFetchJsonError (category : string)
| MsgItem (is_watched : bool) (item_name : string) (quantity : Z)
| MsgInStock
| MsgOutOfStock
| MsgTotalItems (total_items : nat)
| MsgWatchedItemsFound (watched_items_found : list string)
| MsgNoWatchedItems.

Inductive effect :=
| Print (m : message)
| HttpGet (url : string)
| HttpPost (url : string) (payload : Embed).

(** A JSON value, as [response.json()] returns it; the members of an
    object are in the order of the parsed dictionary, with distinct keys. *)
Inductive json :=
| JNull
| JBool (b : bool)
| JNumber (n : Z)
| JFloat (mantissa exponent : Z)
| JString (s : string)
| JArray (elements : list json)
| JObject (members : list (string * json)).

(** The values a category can be mapped to: what [response.json()]
    returns, with the empty list [[]] that is stored for a failed fetch.  The
    fetcher stores a body without looking into it, so it is modelled for any
    such type: for [json], and for the lists of item records that the
    detector and the display are modelled on. *)
Class Body (B : Type) := no_items : B.

#[global] Instance items_body : Body (list Item) := [].
#[global] Instance json_body : Body json := JArray [].

(** What the remote ends answer.  [session.get] raises a
    [RequestException] or returns a response with a status code whose
    [.json()] either returns the parsed body, of whatever shape, or raises
    [JSONDecodeError]; [requests.post] raises or returns a status code. *)
Inductive get_outcome (B : Type) :=
| GetRaises
| GetResponse (status_code : Z) (json : option B).
Arguments GetRaises {B}.
Arguments GetResponse {B} status_code json.

Inductive post_outcome :=
| PostRaises
| PostResponse (status_code : Z).

(** The fields of [self] that the modelled methods read or write. *)
Record GAGItemsMonitor := mkMonitor {
  watchlist : list string;
  discord_webhook : option string;
  previous_stock : gmap string Z
}.

Record State := mkState {
  self : GAGItemsMonitor;
  trace : list effect
}.

(** [__init__], after the two configuration files were read. *)
Definition init (wl : list string) (wh : option string) : GAGItemsMonitor :=
  {| watchlist := wl; discord_webhook := wh; previous_stock := ∅ |}.

Definition base_url : string := "https://gagapi.onrender.com".
Definition categories : list string :=
  ["seeds"; "gear"; "eggs"; "cosmetics"; "eventshop"]%string.

(** ** A state and exception monad for the methods *)

Inductive result (A : Type) :=
| Return (a : A)
| Raise (e : exn).
Arguments Return {A} a.
Arguments Raise {A} e.

Definition M (A : Type) : Type := State → result A * State.

#[global] Instance M_ret : MRet M := λ A a s, (Return a, s).

(** Sequencing: an exception skips the rest and keeps the state reached. *)
#[global] Instance M_bind : MBind M := λ A B k m s,
  match m s with
  | (Return a, s') => k a s'
  | (Raise e, s') => (Raise e, s')
  end.

Definition gets {A} (f : GAGItemsMonitor → A) : M A :=
  λ s, (Return (f (self s)), s).

Definition emit (e : effect) : M unit :=
  λ s, (Return tt, {| self := self s; trace := trace s ++ [e] |}).

Definition print (m : message) : M unit := emit (Print m).

Definition raise {A} (e : exn) : M A := λ s, (Raise e, s).

(** [try: body except <any modelled exception> as e: handler e] *)
Definition try_except {A} (body : M A) (handler : exn → M A) : M A :=
  λ s, match body s with
       | (Return a, s') => (Return a, s')
       | (Raise e, s') => handler e s'
       end.

(** [for x in l: body x]; an exception in the body leaves the loop. *)
Fixpoint for_each {A} (l : list A) (body : A → M unit) : M unit :=
  match l with
  | [] => mret tt
  | x :: l' => body x ;; for_each l' body
  end.

(** [self.previous_stock[k] = q] *)
Definition set_previous_stock (k : string) (q : Z) : M unit :=
  λ s, (Return tt,
        {| self := {| watchlist := watchlist (self s);
                      discord_webhook := discord_webhook (self s);
                      previous_stock := <[k := q]> (previous_stock (self s)) |};
           trace := trace s |}).

(** ** Insertion-ordered dictionary, for [all_data] *)

Fixpoint dict_set {V} (k : string) (v : V) (d : list (string * V))
  : list (string * V) :=
  match d with
  | [] => [(k, v)]
  | (k', v') :: d' =>
      if decide (k = k') then (k, v) :: d' else (k', v') :: dict_set k v d'
  end.

Fixpoint dict_get {V} (k : string) (d : list (string * V)) : option V :=
  match d with
  | [] => None
  | (k', v') :: d' => if decide (k = k') then Some v' else dict_get k d'
  end.

Section Monitor.

(** [str.lower]. *)
Context (lower : string → string).

(** The remote API, by request URL, and the webhook, by everything that
    happened before the request. *)
Context {B : Type} `{!Body B}.
Context (http_get : string → get_outcome B).
Context (http_post : list effect → post_outcome).

(** *** Notifier: [send_discord_notification] *)

(** [requests.post(self.discord_webhook, json=payload)], returning
    [response.status_code]. *)
Definition requests_post (url : string) (payload : Embed) : M Z :=
  λ s, let s' := {| self := self s; trace := trace s ++ [HttpPost url payload] |} in
       match http_post (trace s) with
       | PostRaises => (Raise RequestException, s')
       | PostResponse status_code => (Return status_code, s')
       end.

Definition send_discord_notification
    (item_name category : string) (quantity previous_quantity : Z) : M unit :=
  webhook ← gets discord_webhook;
  match webhook with
  | None => mret tt
  | Some url =>
      try_except
        (let payload := {| embed_item_name := item_name;
                           embed_category := category;
                           embed_quantity := quantity;
                           embed_previous_quantity := previous_quantity |} in
         status_code ← requests_post url payload;
         if decide (status_code = 204)
         then print (MsgNotificationSent item_name category)
         else print (MsgNotificationFailed status_code))
        (λ e, print (MsgNotificationError e))
  end.

(** *** Stock-change detector: [check_stock_changes] *)

(** The first loop nest: every record overwrites the entry of its
    lower-cased name. *)
Definition record_item (category : string)
    (current_stock : gmap string (Z * string)) (item : Item)
  : gmap string (Z * string) :=
  let item_name := lower (default EmptyString (name item)) in
  let quantity := default 0 (quantity item) in
  <[item_name := (quantity, category)]> current_stock.

Definition record_category (current_stock : gmap string (Z * string))
    (entry : string * list Item) : gmap string (Z * string) :=
  foldl (record_item entry.1) current_stock entry.2.

Definition build_current_stock (all_items_data : Snapshot)
  : gmap string (Z * string) :=
  foldl record_category ∅ all_items_data.

(** [current_stock.get(k, {'quantity': 0, 'category': 'unknown'})] *)
Definition current_data (current_stock : gmap string (Z * string))
    (k : string) : Z * string :=
  default (0, "unknown"%string) (current_stock !! k).

(** The body of the second loop. *)
Definition check_item (current_stock : gmap string (Z * string))
    (watched_item : string) : M unit :=
  let watched_item_lower := lower watched_item in
  let current_quantity := (current_data current_stock watched_item_lower).1 in
  let category := (current_data current_stock watched_item_lower).2 in
  previous_quantity ←
    gets (λ m, default 0 (previous_stock m !! watched_item_lower));
  (if decide (0 < current_quantity)
   then print (MsgAlert watched_item current_quantity category) ;;
        send_discord_notification watched_item category
                                  current_quantity previous_quantity
   else mret tt) ;;
  set_previous_stock watched_item_lower current_quantity.

Definition check_stock_changes (all_items_data : Snapshot) : M unit :=
  wl ← gets watchlist;
  match wl with
  | [] => mret tt
  | _ :: _ =>
      let current_stock := build_current_stock all_items_data in
      for_each wl (check_item current_stock)
  end.

(** *** Inventory fetcher: [get_all_items_data] *)

(** [self.session.get(url)], returning the response. *)
Definition session_get (url : string) : M (Z * option B) :=
  emit (HttpGet url);;
  match http_get url with
  | GetRaises => raise RequestException
  | GetResponse status_code json => mret (status_code, json)
  end.

(** [response.json()]: the parsed body as it is, with no check of its
    shape. *)
Definition response_json (response : Z * option B) : M B :=
  match response.2 with
  | Some body => mret body
  | None => raise JSONDecodeError
  end.

(** One turn of the loop over [self.categories]; [all_data] is threaded. *)
Definition fetch_category (all_data : list (string * B)) (category : string)
  : M (list (string * B)) :=
  try_except
    (print (MsgFetching category);;
     response ← session_get (base_url +:+ "/" +:+ category);
     if decide (response.1 = 200)
     then body ← response_json response;
          mret (dict_set category body all_data)
     else print (MsgFetchHttpError category response.1);;
          mret (dict_set category no_items all_data))
    (λ e, match e with
          | RequestException =>
              print (MsgFetchNetworkError category);;
              mret (dict_set category no_items all_data)
          | JSONDecodeError =>
              print (MsgFetchJsonError category);;
              mret (dict_set category no_items all_data)
          end).

Fixpoint fetch_loop (cats : list string) (all_data : list (string * B))
  : M (list (string * B)) :=
  match cats with
  | [] => mret all_data
  | category :: cats' =>
      all_data' ← fetch_category all_data category;
      fetch_loop cats' all_data'
  end.

Definition get_all_items_data : M (list (string * B)) :=
  fetch_loop categories [].

(** *** Display: the item listing and the aggregate lines of
    [display_all_items].  The banner, the timestamp and the status lines
    above the listing and the category headers are not modelled. *)

(** [item_name.lower() in [s.lower() for s in self.watchlist]] *)
Definition is_watched (wl : list string) (item_name : string) : bool :=
  bool_decide (lower item_name ∈ lower <$> wl).

(** The accumulators of the listing loop. *)
Record Listing := mkListing {
  total_items : nat;
  watched_items_found : list string;
  lines : list message
}.

Definition display_item (wl : list string) (category : string)
    (acc : Listing) (item : Item) : Listing :=
  let item_name := default "Unknown"%string (name item) in
  let quantity := default 0 (quantity item) in
  let watched := is_watched wl item_name in
  {| total_items := S (total_items acc);
     watched_items_found :=
       if watched
       then watched_items_found acc ++ [item_name +:+ " (" +:+ category +:+ ")"]
       else watched_items_found acc;
     lines :=
       lines acc ++ [MsgItem watched item_name quantity] ++
       (if watched && bool_decide (0 < quantity) then [MsgInStock]
        else if watched && bool_decide (quantity = 0) then [MsgOutOfStock]
        else []) |}.

Definition display_category (wl : list string) (acc : Listing)
    (entry : string * list Item) : Listing :=
  match entry.2 with
  | [] => acc
  | _ :: _ => foldl (display_item wl entry.1) acc entry.2
  end.

Definition display_listing (wl : list string) (all_items_data : Snapshot)
  : Listing :=
  foldl (display_category wl)
        {| total_items := 0; watched_items_found := []; lines := [] |}
        all_items_data.

Definition display_all_items (all_items_data : Snapshot) : M unit :=
  wl ← gets watchlist;
  let listing := display_listing wl all_items_data in
  for_each (lines listing) print;;
  print (MsgTotalItems (total_items listing));;
  match watched_items_found listing with
  | [] => print MsgNoWatchedItems
  | found => print (MsgWatchedItemsFound found)
  end.

End Monitor.

(** ** The auto-refresh wait of [run]

    Time is in milliseconds.  [running t] is the value a read of
    [self.running] yields at time [t]; the keyboard thread is its only writer
    during the wait.  [time.sleep(1)] is taken to last one second and the
    test to take no time. *)

Section Wait.

Context (running : Z → bool).

Record Waited := mkWaited {
  now : Z;
  sleeps : list Z
}.

(** [for _ in range(remaining): if not self.running: break; time.sleep(1)] *)
Fixpoint wait_loop (remaining : nat) (w : Waited) : Waited :=
  match remaining with
  | O => w
  | S remaining' =>
      if running (now w)
      then wait_loop remaining'
             {| now := now w + 1000; sleeps := sleeps w ++ [1000] |}
      else w
  end.

Definition auto_refresh_wait (remaining : Z) (start : Z) : Waited :=
  wait_loop (Z.to_nat remaining) {| now := start; sleeps := [] |}.

(** The guard of [while self.running], read when the wait is over. *)
Definition loop_continues (w : Waited) : bool := running (now w).

End Wait.

(** ** [str.lower] on ASCII strings, for concrete runs *)

Definition ascii_lower (c : ascii) : ascii :=
  let n := nat_of_ascii c in
  if (65 <=? n)%nat && (n <=? 90)%nat then ascii_of_nat (n + 32) else c.

Fixpoint str_lower (s : string) : string :=
  match s with
  | EmptyString => EmptyString
  | String c s' => String (ascii_lower c) (str_lower s')
  end.

(** ** Letter case

    Respelling, stated on the characters and not through [str.lower]. *)










(** ** Functions in which the properties are stated *)

(** The records of a snapshot in the order the loop nests visit them. *)
Definition scan (all_items_data : Snapshot) : list (string * Item) :=
  all_items_data ≫= λ entry, pair entry.1 <$> entry.2.

(** Events of a trace: the alert lines and the webhook requests. *)
Definition alerts (tr : list effect) : list (string * Z * string) :=
  omap (λ e, match e with
             | Print (MsgAlert w q c) => Some (w, q, c)
             | _ => None
             end) tr.

Definition posts (tr : list effect) : list (string * Embed) :=
  omap (λ e, match e with
             | HttpPost url payload => Some (url, payload)
             | _ => None
             end) tr.

Definition with_previous_stock (m : GAGItemsMonitor) (ps : gmap string Z)
  : GAGItemsMonitor :=
  {| watchlist := watchlist m;
     discord_webhook := discord_webhook m;
     previous_stock := ps |}.

(** The line that follows a webhook request answered by [o]. *)
Definition notification_log (o : post_outcome) (item_name category : string)
  : message :=
  match o with
  | PostRaises => MsgNotificationError RequestException
  | PostResponse status_code =>
      if decide (status_code = 204)
      then MsgNotificationSent item_name category
      else MsgNotificationFailed status_code
  end.

(** What one trigger event appends to the trace [tr]: the alert line, then,
    with a webhook configured, the request and the line on its outcome. *)
Definition notification_effects (http_post : list effect → post_outcome)
    (wh : option string) (tr : list effect) (e : Embed) : list effect :=
  match wh with
  | None => []
  | Some url =>
      [HttpPost url e;
       Print (notification_log (http_post tr)
                (embed_item_name e) (embed_category e))]
  end.

Definition alert_line (e : Embed) : effect :=
  Print (MsgAlert (embed_item_name e) (embed_quantity e) (embed_category e)).

Definition event_effects (http_post : list effect → post_outcome)
    (wh : option string) (tr : list effect) (e : Embed) : list effect :=
  alert_line e :: notification_effects http_post wh (tr ++ [alert_line e]) e.

Fixpoint cycle_trace (http_post : list effect → post_outcome)
    (wh : option string) (tr : list effect) (events : list Embed)
  : list effect :=
  match events with
  | [] => tr
  | e :: events' =>
      cycle_trace http_post wh (tr ++ event_effects http_post wh tr e) events'
  end.

Definition fetch_url (category : string) : string :=
  base_url +:+ "/" +:+ category.

(** What a category is mapped to, by the answer to its request. *)
Definition fetched {B} `{!Body B} (o : get_outcome B) : B :=
  match o with
  | GetResponse status_code (Some body) =>
      if decide (status_code = 200) then body else no_items
  | _ => no_items
  end.

Definition fetch_failed {B} (o : get_outcome B) : Prop :=
  match o with
  | GetRaises => True
  | GetResponse status_code json => status_code ≠ 200 ∨ json = None
  end.

(** The item record a JSON value is, if it is one: an object whose name,
    if it has one, is a string and whose quantity, if it has one, is an
    integer. *)
Definition as_item (v : json) : option Item :=
  match v with
  | JObject members =>
      match dict_get "name" members, dict_get "quantity" members with
      | None, None => Some (mkItem None None)
      | Some (JString s), None => Some (mkItem (Some s) None)
      | None, Some (JNumber n) => Some (mkItem None (Some n))
      | Some (JString s), Some (JNumber n) => Some (mkItem (Some s) (Some n))
      | _, _ => None
      end
  | _ => None
  end.

(** The list of item records a body is, if it is one. *)
Definition as_items (body : json) : option (list Item) :=
  match body with
  | JArray elements => mapM as_item elements
  | _ => None
  end.

(** A fetch that fails as the specification counts failures: the request
    raises, the status is not 200, or the body is malformed, be it no JSON
    or JSON that is not a list of item records. *)
Definition fetch_failed_or_malformed (o : get_outcome json) : Prop :=
  match o with
  | GetRaises => True
  | GetResponse status_code None => True
  | GetResponse status_code (Some body) =>
      status_code ≠ 200 ∨ as_items body = None
  end.

(** The reading of the specification: such a category is mapped to the
    empty list. *)
Definition malformed_mapped_to_empty (http_get : string → get_outcome json)
    (s : State) : Prop :=
  ∀ category, category ∈ categories →
    fetch_failed_or_malformed (http_get (fetch_url category)) →
    ∃ snap, (get_all_items_data http_get s).1 = Return snap ∧
            dict_get category snap = Some (JArray []).

Section Reading.

Context (lower : string → string).

Definition item_key (item : Item) : string :=
  lower (default EmptyString (name item)).

Definition item_quantity (item : Item) : Z := default 0 (quantity item).

(** One step of the first loop nest of the detector, on a scanned record. *)
Definition record_entry (cs : gmap string (Z * string)) (e : string * Item)
  : gmap string (Z * string) :=
  record_item lower e.1 cs e.2.

Definition display_name (item : Item) : string :=
  default "Unknown"%string (name item).

Definition found_entry (e : string * Item) : string :=
  display_name e.2 +:+ " (" +:+ e.1 +:+ ")".

(** A scanned record that the display marks as watched. *)
Definition watched_entry (wl : list string) (e : string * Item) : Prop :=
  is_watched lower wl (display_name e.2).

Definition matching (k : string) (all_items_data : Snapshot)
  : list (string * Item) :=
  filter (λ e, item_key e.2 = k) (scan all_items_data).

Definition stock_entry (e : string * Item) : Z * string :=
  (item_quantity e.2, e.1).

Definition first_match (all_items_data : Snapshot) (k : string)
  : option (Z * string) :=
  stock_entry <$> head (matching k all_items_data).

Definition last_match (all_items_data : Snapshot) (k : string)
  : option (Z * string) :=
  stock_entry <$> last (matching k all_items_data).

(** The quantity a snapshot shows for a name: that of the last scanned
    record of the name, up to letter case, and 0 without such a record. *)
Definition observed_quantity (all_items_data : Snapshot) (w : string) : Z :=
  match last (matching (lower w) all_items_data) with
  | Some e => item_quantity e.2
  | None => 0
  end.

(** Quantity and category the detector works with for a watched name. *)
Definition current_quantity (all_items_data : Snapshot) (w : string) : Z :=
  (current_data (build_current_stock lower all_items_data) (lower w)).1.

Definition current_category (all_items_data : Snapshot) (w : string) : string :=
  (current_data (build_current_stock lower all_items_data) (lower w)).2.

(** One trigger event: the arguments of the [send_discord_notification]
    call, when there is one. *)
Definition trigger_event (all_items_data : Snapshot) (ps : gmap string Z)
    (w : string) : list Embed :=
  if decide (0 < current_quantity all_items_data w)
  then [{| embed_item_name := w;
           embed_category := current_category all_items_data w;
           embed_quantity := current_quantity all_items_data w;
           embed_previous_quantity := default 0 (ps !! lower w) |}]
  else [].

Definition observe (all_items_data : Snapshot) (ps : gmap string Z)
    (w : string) : gmap string Z :=
  <[lower w := current_quantity all_items_data w]> ps.

Fixpoint trigger_events (all_items_data : Snapshot) (wl : list string)
    (ps : gmap string Z) : list Embed :=
  match wl with
  | [] => []
  | w :: wl' =>
      trigger_event all_items_data ps w ++
      trigger_events all_items_data wl' (observe all_items_data ps w)
  end.

Definition alert_of (e : Embed) : string * Z * string :=
  (embed_item_name e, embed_quantity e, embed_category e).




(** States the monitor can be in: after [__init__] and any number of
    fetches, detector passes and displays. *)
Inductive reachable : State → Prop :=
| reachable_init wl wh :
    reachable {| self := init wl wh; trace := [] |}
| reachable_fetch {B} `{!Body B} (http_get : string → get_outcome B) s :
    reachable s → reachable (get_all_items_data http_get s).2
| reachable_check http_post all_items_data s :
    reachable s →
    reachable (check_stock_changes lower http_post all_items_data s).2
| reachable_display all_items_data s :
    reachable s → reachable (display_all_items lower all_items_data s).2.

(** The two readings of a repeated name, as statements about the detector. *)
Definition first_match_wins (all_items_data : Snapshot) (k : string) : Prop :=
  build_current_stock lower all_items_data !! k = first_match all_items_data k.

Definition last_match_wins (all_items_data : Snapshot) (k : string) : Prop :=
  build_current_stock lower all_items_data !! k = last_match all_items_data k.

(** The aggregate line read as a list of the watched items in stock. *)
Definition found_only_in_stock (wl : list string) (all_items_data : Snapshot)
  : Prop :=
  ∀ e, e ∈ scan all_items_data →
       found_entry e ∈ watched_items_found (display_listing lower wl all_items_data) →
       0 < item_quantity e.2.

End Reading.

(** The API of a concrete fetch: gear answers with an item, eggs with a
    body that is not JSON, cosmetics with a server error, and the requests
    for seeds and the event shop do not get through. *)
Definition ex_get (url : string) : get_outcome (list Item) :=
  if decide (url = fetch_url "gear")
  then GetResponse 200 (Some [mkItem (Some "Trowel"%string) (Some 2)])
  else if decide (url = fetch_url "eggs") then GetResponse 200 None
  else if decide (url = fetch_url "cosmetics") then GetResponse 503 (Some [])
  else GetRaises.

(** The same API in JSON, with an answer for the event shop that is JSON
    but no list of records. *)
Definition ex_get_json (url : string) : get_outcome json :=
  if decide (url = fetch_url "gear")
  then GetResponse 200
         (Some (JArray [JObject [("name", JString "Trowel");
                                 ("quantity", JNumber 2)]%string]))
  else if decide (url = fetch_url "eggs") then GetResponse 200 None
  else if decide (url = fetch_url "cosmetics")
  then GetResponse 503 (Some (JArray []))
  else if decide (url = fetch_url "eventshop")
  then GetResponse 200 (Some (JObject [("error", JString "busy")]%string))
  else GetRaises.

(** A shop whose only tulip is sold out, with the tulip watched. *)
Definition ex_snapshot_sold_out : Snapshot :=
  [("seeds", [mkItem (Some "Tulip") (Some 0)])]%string.

(** ** A concrete run

    Two categories list a carrot under different spellings and in different
    quantities; the watchlist names the carrot, a sunflower that is in stock
    and a tulip that the shop does not have. *)

Definition ex_snapshot : Snapshot :=
  [("seeds", [mkItem (Some "Carrot") (Some 0);
              mkItem (Some "Sunflower") (Some 3)]);
   ("gear", [mkItem (Some "CARROT") (Some 5)])]%string.

Definition ex_watchlist : list string := ["carrot"; "Tulip"; "sunFlower"]%string.

Definition ex_url : string := "https://discord.com/api/webhooks/1/t".

(** The webhook accepts the first request and fails afterwards. *)
Definition ex_post (tr : list effect) : post_outcome :=
  if decide (length (posts tr) = 0%nat) then PostResponse 204 else PostRaises.

Definition ex_state : State :=
  {| self := init ex_watchlist (Some ex_url); trace := [] |}.

Definition ex_state_silent : State :=
  {| self := init ex_watchlist None; trace := [] |}.

Definition ex_state_idle : State :=
  {| self := init [] (Some ex_url); trace := [] |}.




(** ** Configuration files: [load_watchlist] and [load_discord_webhook] *)

(** What reading a text file does: the path does not exist, or iterating the
    file yields [lines] and then stops, at the end of the file or ([fails])
    with an exception; an [open] that raises is [File [] true]. *)
Inductive file :=
| NoFile
| File (lines : list string) (fails : bool).

(** The one line each loader prints. *)
Inductive config_message :=
| MsgLoaded (n : nat) (entries : list string)
| MsgWatchlistWarning
| MsgNoWatchlistFile
| MsgWebhookLoaded
| MsgNoValidWebhook
| MsgWebhookWarning
| MsgNoWebhookFile.

Definition webhook_prefix : string := "https://discord.com/api/webhooks/".

Section Config.

(** [str.strip]. *)
Context (strip : string → string).

(** [line and not line.startswith('#')] *)
Definition watchlist_line (line : string) : bool :=
  bool_decide (line ≠ EmptyString) && negb (String.prefix "#" line).

(** The loop over the file, appending to [watchlist]. *)
Fixpoint read_watchlist (lines : list string) (watchlist : list string)
  : list string :=
  match lines with
  | [] => watchlist
  | line :: lines' =>
      let line := strip line in
      if watchlist_line line
      then read_watchlist lines' (watchlist ++ [line])
      else read_watchlist lines' watchlist
  end.

(** An exception leaves the loop for the handler, which warns; the entries
    appended before it stay in [watchlist], which is returned in any case. *)
Definition load_watchlist (f : file) : list string * list config_message :=
  match f with
  | NoFile => ([], [MsgNoWatchlistFile])
  | File lines fails =>
      let watchlist := read_watchlist lines [] in
      (watchlist,
       [if fails then MsgWatchlistWarning
        else MsgLoaded (length watchlist) watchlist])
  end.

(** [line and not line.startswith('#') and line.startswith(prefix)] *)
Definition webhook_line (line : string) : bool :=
  watchlist_line line && String.prefix webhook_prefix line.

(** The loop over the file, left by [return line]. *)
Fixpoint read_webhook (lines : list string) : option string :=
  match lines with
  | [] => None
  | line :: lines' =>
      let line := strip line in
      if webhook_line line then Some line else read_webhook lines'
  end.

Definition load_discord_webhook (f : file)
  : option string * list config_message :=
  match f with
  | NoFile => (None, [MsgNoWebhookFile])
  | File lines fails =>
      match read_webhook lines with
      | Some url => (Some url, [MsgWebhookLoaded])
      | None =>
          (None, [if fails then MsgWebhookWarning else MsgNoValidWebhook])
      end
  end.

(** The monitor [__init__] builds from the two files. *)
Definition load_monitor (watchlist_file webhook_file : file)
  : GAGItemsMonitor :=
  init (load_watchlist watchlist_file).1 (load_discord_webhook webhook_file).1.

(** A watchlist file that yields no entry: missing, or nothing but blank
    lines and comments. *)
Definition no_entries (f : file) : Prop :=
  match f with
  | NoFile => True
  | File lines _ => Forall (λ line, watchlist_line (strip line) = false) lines
  end.

End Config.

(** ** [str.strip] on ASCII strings, for concrete runs *)

Definition ascii_space (c : ascii) : bool :=
  let n := nat_of_ascii c in
  (n =? 32)%nat || ((9 <=? n)%nat && (n <=? 13)%nat).

Fixpoint str_lstrip (s : string) : string :=
  match s with
  | EmptyString => EmptyString
  | String c s' => if ascii_space c then str_lstrip s' else s
  end.

Fixpoint str_rstrip (s : string) : string :=
  match s with
  | EmptyString => EmptyString
  | String c s' =>
      match str_rstrip s' with
      | EmptyString => if ascii_space c then EmptyString else String c EmptyString
      | r => String c r
      end
  end.

Definition str_strip (s : string) : string := str_lstrip (str_rstrip s).

(** A watchlist file and a webhook file as a user would write them. *)
Definition ex_watchlist_file : file :=
  File ["# my watchlist"; "carrot "; " "; "  Tulip"; "#Rose"; "sunFlower"]%string
       false.

Definition ex_webhook_file : file :=
  File ["# paste the url below"; "http://example.org/hook";
        " https://discord.com/api/webhooks/1/t ";
        "https://discord.com/api/webhooks/2/u"]%string
       true.

(** ** One cycle of [run]: fetch, detect, display *)

Section Cycle.

Context (lower : string → string).
(** The cycle is modelled for an API whose bodies are lists of item
    records, the data the detector and the display are modelled on. *)
Context (http_get : string → get_outcome (list Item)).
Context (http_post : list effect → post_outcome).

(** The first three statements of the loop body of [run]. *)
Definition run_cycle : M unit :=
  all_items_data ← get_all_items_data http_get;
  check_stock_changes lower http_post all_items_data;;
  display_all_items lower all_items_data.

(** The snapshot a fetch returns. *)
Definition fetched_snapshot : Snapshot :=
  (λ category, (category, fetched (http_get (fetch_url category))))
    <$> categories.

(** No category can be fetched. *)
Definition outage : Prop :=
  Forall (λ category, fetch_failed (http_get (fetch_url category))) categories.

(** The alert of a watchlist entry and the event of an entry that the
    observation state [ps] has a previous quantity for. *)
Definition alert_for (all_items_data : Snapshot) (w : string)
  : string * Z * string :=
  (w, current_quantity lower all_items_data w,
   current_category lower all_items_data w).

Definition event_for (all_items_data : Snapshot) (previous : string → Z)
    (w : string) : Embed :=
  {| embed_item_name := w;
     embed_category := current_category lower all_items_data w;
     embed_quantity := current_quantity lower all_items_data w;
     embed_previous_quantity := previous w |}.

Definition in_stock (all_items_data : Snapshot) (w : string) : Prop :=
  0 < current_quantity lower all_items_data w.

End Cycle.

#[global] Instance in_stock_dec lower snap w : Decision (in_stock lower snap w).
Proof. unfold in_stock. apply _. Defined.

(** The requests of a trace to the inventory API. *)
Definition fetches (tr : list effect) : list string :=
  omap (λ e, match e with HttpGet url => Some url | _ => None end) tr.

(** An API that is down: every request raises. *)
Definition ex_get_down (url : string) : get_outcome (list Item) := GetRaises.

(** The carrot is on the watchlist under two spellings. *)
Definition ex_state_twice : State :=
  {| self := init ["carrot"; "Tulip"; "CARROT"]%string (Some ex_url);
     trace := [] |}.

(** ** Run mode and the keyboard listener: [keyboard_input_handler] *)

(** The fields of [self] that steer the loop; times are in milliseconds,
    the interval is in seconds. *)
Record RunMode := mkRunMode {
  auto_refresh : bool;
  auto_refresh_interval : Z;
  last_refresh_time : Z;
  running : bool
}.

(** [__init__] at time [now]. *)
Definition run_mode_init (now : Z) : RunMode :=
  {| auto_refresh := false; auto_refresh_interval := 60;
     last_refresh_time := now; running := true |}.

Inductive listener_message :=
| MsgAutoRefreshEnabled (interval : Z)
| MsgAutoRefreshDisabled
| MsgManualRefresh
| MsgQuitting
| MsgKeyboardError.

(** The run mode as both threads share it, with what the listener printed
    and whether its loop is still going. *)
Record Shared := mkShared {
  mode : RunMode;
  listening : bool;
  shown : list listener_message
}.

Definition shared_init (now : Z) : Shared :=
  {| mode := run_mode_init now; listening := true; shown := [] |}.

(** [msvcrt.getch()] returns one byte; [.decode('utf-8')] of one byte
    succeeds exactly on the bytes below 128. *)
Definition decode_key (b : ascii) : option ascii :=
  if (nat_of_ascii b <? 128)%nat then Some b else None.

Definition ascii_upper (c : ascii) : ascii :=
  let n := nat_of_ascii c in
  if (97 <=? n)%nat && (n <=? 122)%nat then ascii_of_nat (n - 32) else c.

(** [msvcrt.getch().decode('utf-8').upper()] *)
Definition key_of (b : ascii) : option ascii := ascii_upper <$> decode_key b.

(** The body of the listener loop for a key [b] found at time [now]:
    the new run mode, what is printed, and whether the loop goes on. *)
Definition handle_key (now : Z) (b : ascii) (m : RunMode)
  : RunMode * list listener_message * bool :=
  match key_of b with
  | None => (m, [MsgKeyboardError], false)
  | Some key =>
      if decide (key = "M"%char) then
        let m' := {| auto_refresh := negb (auto_refresh m);
                     auto_refresh_interval := auto_refresh_interval m;
                     last_refresh_time := last_refresh_time m;
                     running := running m |} in
        if auto_refresh m'
        then ({| auto_refresh := auto_refresh m';
                 auto_refresh_interval := auto_refresh_interval m';
                 last_refresh_time := now;
                 running := running m' |},
              [MsgAutoRefreshEnabled (auto_refresh_interval m')], true)
        else (m', [MsgAutoRefreshDisabled], true)
      else if decide (key = "R"%char) then
        ({| auto_refresh := auto_refresh m;
            auto_refresh_interval := auto_refresh_interval m;
            last_refresh_time := now;
            running := running m |},
         [MsgManualRefresh], true)
      else if decide (key = "Q"%char) then
        ({| auto_refresh := auto_refresh m;
            auto_refresh_interval := auto_refresh_interval m;
            last_refresh_time := last_refresh_time m;
            running := false |},
         [MsgQuitting], false)
      else (m, [], true)
  end.

(** One key press, with its time: it is handled when the loop of the
    listener is still going, which [while self.running] ends as well. *)
Definition press (sh : Shared) (k : Z * ascii) : Shared :=
  if listening sh && running (mode sh)
  then {| mode := (handle_key k.1 k.2 (mode sh)).1.1;
          listening := (handle_key k.1 k.2 (mode sh)).2;
          shown := shown sh ++ (handle_key k.1 k.2 (mode sh)).1.2 |}
  else {| mode := mode sh; listening := false; shown := shown sh |}.

(** The listener over the keys pressed, in the order they are pressed. *)
Definition keyboard_input_handler (keys : list (Z * ascii)) (sh : Shared)
  : Shared :=
  foldl press sh keys.

(** The keys pressed up to time [t], and the running flag as a read at
    time [t] finds it. *)
Definition keys_until (t : Z) (keys : list (Z * ascii)) : list (Z * ascii) :=
  filter (λ k, k.1 ≤ t) keys.

Definition running_after (keys : list (Z * ascii)) (sh : Shared) (t : Z)
  : bool :=
  running (mode (keyboard_input_handler (keys_until t keys) sh)).

(** The number of presses of the key [key]. *)
Definition presses (key : ascii) (keys : list (Z * ascii)) : nat :=
  length (filter (λ k, key_of k.2 = Some key) keys).

(** ** The loop of [run] *)

Inductive run_message :=
| MsgAutoRefreshing (interval : Z)
| MsgNextAutoRefresh (remaining : Z)
| MsgOptions
| MsgGoodbye
| MsgAutoRefreshOn (interval : Z)
| MsgRefreshing
| MsgInterrupted
| MsgUnexpectedError.

Inductive run_event :=
| Said (m : run_message)
| Slept (milliseconds : Z).

(** What [input()] does: a line, or [EOFError] on a closed input, or
    [KeyboardInterrupt]. *)
Inductive input_outcome :=
| InputLine (line : string)
| InputEOF
| InputInterrupt.

Inductive control := Continue | Break.

Definition set_last_refresh_time (t : Z) (sh : Shared) : Shared :=
  {| mode := {| auto_refresh := auto_refresh (mode sh);
                auto_refresh_interval := auto_refresh_interval (mode sh);
                last_refresh_time := t;
                running := running (mode sh) |};
     listening := listening sh; shown := shown sh |}.

Definition set_running_false (sh : Shared) : Shared :=
  {| mode := {| auto_refresh := auto_refresh (mode sh);
                auto_refresh_interval := auto_refresh_interval (mode sh);
                last_refresh_time := last_refresh_time (mode sh);
                running := false |};
     listening := listening sh; shown := shown sh |}.

Definition set_auto_refresh_true (t : Z) (sh : Shared) : Shared :=
  {| mode := {| auto_refresh := true;
                auto_refresh_interval := auto_refresh_interval (mode sh);
                last_refresh_time := t;
                running := running (mode sh) |};
     listening := listening sh; shown := shown sh |}.

(** The branch [if self.auto_refresh], entered at time [clock]; [keys] are
    the keys pressed while it lasts.  The listener handles a key at the time
    it is pressed; statements other than [time.sleep] take no time. *)
Definition auto_refresh_phase (keys : list (Z * ascii)) (clock : Z) (sh : Shared)
  : Shared * list run_event :=
  let time_since_refresh := clock - last_refresh_time (mode sh) in
  if decide (1000 * auto_refresh_interval (mode sh) ≤ time_since_refresh)
  then (set_last_refresh_time clock sh,
        [Said (MsgAutoRefreshing (auto_refresh_interval (mode sh)))])
  else
    let remaining :=
      auto_refresh_interval (mode sh) - Z.quot time_since_refresh 1000 in
    let w := auto_refresh_wait (running_after keys sh) remaining clock in
    (keyboard_input_handler (keys_until (now w) keys) sh,
     Said (MsgNextAutoRefresh remaining) :: (Slept <$> sleeps w)).

Section Manual.

Context (strip lower : string → string).

(** The branch of manual mode, with the handlers of [run] for what
    [input()] raises; [now] is the time the line is read. *)
Definition manual_phase (now : Z) (inp : input_outcome) (sh : Shared)
  : Shared * list run_event * control :=
  match inp with
  | InputLine line =>
      let user_input := lower (strip line) in
      if decide (user_input ∈ ["quit"; "exit"; "q"]%string)
      then (set_running_false sh, [Said MsgOptions; Said MsgGoodbye], Break)
      else if decide (user_input = "r"%string)
      then (set_auto_refresh_true now sh,
            [Said MsgOptions;
             Said (MsgAutoRefreshOn (auto_refresh_interval (mode sh)))],
            Continue)
      else (sh, [Said MsgOptions; Said MsgRefreshing; Slept 1000], Continue)
  | InputEOF =>
      (sh, [Said MsgOptions; Said MsgUnexpectedError; Slept 5000], Continue)
  | InputInterrupt =>
      (set_running_false sh, [Said MsgOptions; Said MsgInterrupted], Break)
  end.

(** What one turn of the loop meets: the answers of the API and of the
    webhook, the keys pressed before the mode is tested, the time of that
    test, the keys pressed during the wait, and what [input()] does. *)
Record Turn := mkTurn {
  turn_get : string → get_outcome (list Item);
  turn_post : list effect → post_outcome;
  turn_keys : list (Z * ascii);
  turn_now : Z;
  turn_wait_keys : list (Z * ascii);
  turn_input : input_outcome
}.

Record Run := mkRun {
  monitor : State;
  shared : Shared;
  log : list run_event
}.

(** The body of [while self.running]. *)
Definition run_iteration (turn : Turn) (r : Run) : Run * control :=
  let monitor' :=
    (run_cycle lower (turn_get turn) (turn_post turn) (monitor r)).2 in
  let sh := keyboard_input_handler (turn_keys turn) (shared r) in
  if auto_refresh (mode sh)
  then
    let phase := auto_refresh_phase (turn_wait_keys turn) (turn_now turn) sh in
    ({| monitor := monitor'; shared := phase.1; log := log r ++ phase.2 |},
     Continue)
  else
    let phase := manual_phase (turn_now turn) (turn_input turn) sh in
    ({| monitor := monitor'; shared := phase.1.1;
        log := log r ++ phase.1.2 |},
     phase.2).

(** The loop, for as many turns as are given. *)
Fixpoint run_loop (turns : list Turn) (r : Run) : Run :=
  match turns with
  | [] => r
  | turn :: turns' =>
      if running (mode (shared r))
      then match run_iteration turn r with
           | (r', Continue) => run_loop turns' r'
           | (r', Break) => r'
           end
      else r
  end.

End Manual.

(** ** The monad *)

Lemma bind_return {A B} (m : M A) (k : A → M B) s a s' :
  m s = (Return a, s') → (m ≫= k) s = k a s'.
Proof. intros H. unfold mbind, M_bind. by rewrite H. Qed.

Lemma state_eta s : {| self := self s; trace := trace s |} = s.
Proof. by destruct s. Qed.

Lemma for_each_print ms s :
  for_each ms print s =
  (Return tt, {| self := self s; trace := trace s ++ (Print <$> ms) |}).
Proof.
  revert s. induction ms as [|m ms IH]; intros s; simpl.
  - by rewrite app_nil_r, state_eta.
  - erewrite bind_return by reflexivity. rewrite IH. simpl.
    by rewrite <- app_assoc.
Qed.

(** ** The notifier *)

Section NotifierFacts.

Context (http_post : list effect → post_outcome).

Lemma send_discord_notification_run item_name category quantity previous s :
  send_discord_notification http_post item_name category quantity previous s =
  (Return tt,
   {| self := self s;
      trace := trace s ++
        notification_effects http_post (discord_webhook (self s)) (trace s)
          (mkEmbed item_name category quantity previous) |}).
Proof.
  unfold send_discord_notification.
  erewrite bind_return by reflexivity.
  destruct (discord_webhook (self s)) as [url|]; simpl.
  - unfold try_except, requests_post, mbind, M_bind, notification_log, print, emit.
    destruct (http_post (trace s)) as [|status_code]; simpl.
    + by rewrite <- app_assoc.
    + destruct (decide (status_code = 204)); simpl; by rewrite <- app_assoc.
  - unfold mret, M_ret. by rewrite app_nil_r, state_eta.
Qed.

End NotifierFacts.

(** ** The fetcher *)

Section FetcherFacts.

Context {B : Type} `{!Body B}.
Context (http_get : string → get_outcome B).

Lemma dict_set_fresh {V} k (v : V) d :
  k ∉ d.*1 → dict_set k v d = d ++ [(k, v)].
Proof.
  induction d as [|[k' v'] d IH]; simpl; [done|].
  intros Hk. apply not_elem_of_cons in Hk as [Hne Hk].
  rewrite decide_False by done. by rewrite IH.
Qed.

Lemma dict_get_fmap {V} (f : string → V) k l :
  k ∈ l → dict_get k ((λ c, (c, f c)) <$> l) = Some (f k).
Proof.
  induction l as [|c l IH]; [by intros ?%elem_of_nil|].
  intros Hk. simpl. destruct (decide (k = c)) as [->|Hne]; [done|].
  apply elem_of_cons in Hk as [?|Hk]; [done|]. by apply IH.
Qed.

(** One category: whatever the request does, the turn returns with the
    category set, to the items received or to the empty list, after the
    request was made; [self] is not touched. *)
Lemma fetch_category_run all_data category s :
  ∃ new,
    fetch_category http_get all_data category s =
    (Return (dict_set category (fetched (http_get (fetch_url category)))
                      all_data),
     {| self := self s; trace := trace s ++ new |}) ∧
    HttpGet (fetch_url category) ∈ new.
Proof.
  unfold fetch_category, try_except, session_get, response_json, fetched,
    mbind, M_bind, mret, M_ret, print, emit, raise, fetch_url. simpl.
  destruct (http_get (base_url +:+ "/" +:+ category))
    as [|status_code [items|]]; simpl.
  - eexists. rewrite <- !app_assoc. split; [reflexivity|]. simpl.
    right; left.
  - destruct (decide (status_code = 200)); simpl;
      (eexists; rewrite <- !app_assoc; split; [reflexivity|]; simpl;
       right; left).
  - destruct (decide (status_code = 200)); simpl;
      (eexists; rewrite <- !app_assoc; split; [reflexivity|]; simpl;
       right; left).
Qed.

Lemma fetch_loop_run cats all_data s :
  ∃ new,
    fetch_loop http_get cats all_data s =
    (Return (foldl (λ d c, dict_set c (fetched (http_get (fetch_url c))) d)
                   all_data cats),
     {| self := self s; trace := trace s ++ new |}) ∧
    ∀ c, c ∈ cats → HttpGet (fetch_url c) ∈ new.
Proof.
  revert all_data s. induction cats as [|c cats IH]; intros all_data s; simpl.
  - exists []. rewrite app_nil_r, state_eta. split; [done|].
    by intros c ?%elem_of_nil.
  - destruct (fetch_category_run all_data c s) as (new1 & Hrun1 & Hget1).
    erewrite bind_return by exact Hrun1.
    destruct (IH (dict_set c (fetched (http_get (fetch_url c))) all_data)
                 {| self := self s; trace := trace s ++ new1 |})
      as (new2 & Hrun2 & Hget2).
    exists (new1 ++ new2). rewrite Hrun2. simpl. rewrite app_assoc.
    split; [done|]. intros c' Hc'. apply elem_of_app.
    apply elem_of_cons in Hc' as [->|Hc']; [by left|right; by apply Hget2].
Qed.

Lemma foldl_dict_set_fresh {V} (f : string → V) cats d :
  NoDup cats → (∀ c, c ∈ cats → c ∉ d.*1) →
  foldl (λ d c, dict_set c (f c) d) d cats = d ++ ((λ c, (c, f c)) <$> cats).
Proof.
  revert d. induction cats as [|c cats IH]; intros d Hnd Hfresh; simpl.
  - by rewrite app_nil_r.
  - apply NoDup_cons in Hnd as [Hc Hnd].
    rewrite dict_set_fresh by (apply Hfresh; left).
    rewrite IH; [by rewrite <- app_assoc|done|].
    intros c' Hc'. rewrite fmap_app. simpl. intros Hin.
    apply elem_of_app in Hin as [Hin|Hin].
    + by apply (Hfresh c'); [right|].
    + apply list_elem_of_singleton in Hin as ->. done.
Qed.

Lemma keys_fmap_pair {V} (f : string → V) l : ((λ c, (c, f c)) <$> l).*1 = l.
Proof. induction l as [|c l IH]; [done|]. rewrite !fmap_cons. by f_equal. Qed.

Lemma NoDup_categories : NoDup categories.
Proof. compute_done. Qed.

Lemma fetched_failed (o : get_outcome B) :
  fetch_failed o → fetched o = no_items.
Proof.
  destruct o as [|status_code [items|]]; simpl; [done| |done].
  intros [Hne|Hnone]; [by rewrite decide_False|done].
Qed.

Lemma fetched_parsed status_code (body : B) :
  status_code = 200 → fetched (GetResponse status_code (Some body)) = body.
Proof. intros ->. reflexivity. Qed.

End FetcherFacts.

(** ** The display *)

Section DisplayFacts.

Context (lower : string → string).

Lemma foldl_display_item wl category acc items :
  watched_items_found (foldl (display_item lower wl category) acc items) =
  watched_items_found acc ++
  (found_entry <$> filter (watched_entry lower wl) (pair category <$> items)).
Proof.
  revert acc. induction items as [|item items IH]; intros acc.
  - simpl. by rewrite app_nil_r.
  - rewrite fmap_cons, filter_cons. cbn [foldl]. rewrite IH.
    destruct (decide (watched_entry lower wl (category, item))) as [Hw|Hw];
      unfold watched_entry in Hw; cbn [snd] in Hw;
      unfold display_item; cbn [watched_items_found];
      fold (display_name item);
      destruct (is_watched lower wl (display_name item)); try done.
    by rewrite <- app_assoc.
Qed.

Lemma foldl_display_category wl acc snap :
  watched_items_found (foldl (display_category lower wl) acc snap) =
  watched_items_found acc ++
  (found_entry <$> filter (watched_entry lower wl) (scan snap)).
Proof.
  revert acc. induction snap as [|[category items] snap IH]; intros acc.
  - simpl. by rewrite app_nil_r.
  - unfold scan in *. simpl. rewrite IH, filter_app, fmap_app, app_assoc.
    f_equal. unfold display_category. simpl.
    destruct items as [|item items]; [by rewrite app_nil_r|].
    apply foldl_display_item.
Qed.

(** The names collected for the aggregate line: the records, in scan order,
    whose name is on the watchlist up to letter case. *)
Lemma watched_items_found_scan wl snap :
  watched_items_found (display_listing lower wl snap) =
  found_entry <$> filter (watched_entry lower wl) (scan snap).
Proof. unfold display_listing. by rewrite foldl_display_category. Qed.

Lemma display_all_items_run snap s :
  let listing := display_listing lower (watchlist (self s)) snap in
  display_all_items lower snap s =
  (Return tt,
   {| self := self s;
      trace := trace s ++ (Print <$> lines listing) ++
        [Print (MsgTotalItems (total_items listing));
         Print (match watched_items_found listing with
                | [] => MsgNoWatchedItems
                | found => MsgWatchedItemsFound found
                end)] |}).
Proof.
  intros listing. unfold display_all_items.
  erewrite bind_return by reflexivity. fold listing.
  erewrite bind_return by apply for_each_print.
  erewrite bind_return by reflexivity.
  destruct (watched_items_found listing); unfold print, emit; simpl;
    by rewrite <- !app_assoc.
Qed.

End DisplayFacts.

(** ** The dictionary of current stock *)

Section CurrentStockFacts.

Context (lower : string → string).

Lemma foldl_record_category cs snap :
  foldl (record_category lower) cs snap =
  foldl (record_entry lower) cs (scan snap).
Proof.
  revert cs. induction snap as [|[category items] snap IH]; intros cs; [done|].
  unfold scan in *. simpl. rewrite foldl_app, <- IH.
  unfold record_category at 2. simpl. by rewrite foldl_fmap.
Qed.

(** After the loop nest, a key holds what the last record of that name
    stored; keys of no record keep what they had. *)
Lemma lookup_foldl_record_entry cs l k :
  foldl (record_entry lower) cs l !! k =
  match last (filter (λ e, item_key lower e.2 = k) l) with
  | Some e => Some (stock_entry e)
  | None => cs !! k
  end.
Proof.
  induction l as [|e l IH] using rev_ind; [done|].
  rewrite foldl_snoc, filter_app, filter_cons, filter_nil.
  unfold record_entry at 1, record_item.
  fold (item_key lower e.2) (item_quantity e.2).
  destruct (decide (item_key lower e.2 = k)) as [Hk|Hk].
  - rewrite last_snoc, Hk. by rewrite lookup_insert_eq.
  - rewrite app_nil_r. rewrite lookup_insert_ne by done. apply IH.
Qed.

Lemma lookup_build_current_stock snap k :
  build_current_stock lower snap !! k = last_match lower snap k.
Proof.
  unfold build_current_stock, last_match, matching.
  rewrite foldl_record_category, lookup_foldl_record_entry.
  by destruct (last _).
Qed.

(** A name that no record carries is absent, and counts as 0 "unknown". *)
Lemma current_quantity_absent snap w :
  (∀ e, e ∈ scan snap → item_key lower e.2 ≠ lower w) →
  current_quantity lower snap w = 0 ∧
  current_category lower snap w = "unknown"%string.
Proof.
  intros Habs. unfold current_quantity, current_category, current_data.
  rewrite lookup_build_current_stock. unfold last_match, matching.
  assert (filter (λ e, item_key lower e.2 = lower w) (scan snap) = []) as ->;
    [|done].
  destruct (filter _ _) as [|e l] eqn:Hf; [done|].
  assert (e ∈ filter (λ e, item_key lower e.2 = lower w) (scan snap)) as He
    by (rewrite Hf; left).
  apply list_elem_of_filter in He as [He1 He2]. by destruct (Habs e He2).
Qed.

(** When all records of a name agree on the quantity, that is the one. *)
Lemma current_quantity_agreed snap w q :
  (∃ e, e ∈ scan snap ∧ item_key lower e.2 = lower w) →
  (∀ e, e ∈ scan snap → item_key lower e.2 = lower w → item_quantity e.2 = q) →
  current_quantity lower snap w = q.
Proof.
  intros (e0 & He0 & Hk0) Hall. unfold current_quantity, current_data.
  rewrite lookup_build_current_stock. unfold last_match, matching.
  destruct (last _) as [e|] eqn:Hlast; simpl.
  - assert (e ∈ filter (λ e, item_key lower e.2 = lower w) (scan snap)) as He.
    { apply last_Some in Hlast as [l' ->]. apply elem_of_app. right. left. }
    apply list_elem_of_filter in He as [He1 He2]. by apply Hall.
  - apply last_None in Hlast.
    assert (e0 ∈ filter (λ e, item_key lower e.2 = lower w) (scan snap)) as He
      by by apply list_elem_of_filter.
    rewrite Hlast in He. by apply elem_of_nil in He.
Qed.

(** The detector reads what the snapshot shows. *)
Lemma current_quantity_observed snap w :
  current_quantity lower snap w = observed_quantity lower snap w.
Proof.
  unfold current_quantity, current_data, observed_quantity.
  rewrite lookup_build_current_stock. unfold last_match.
  by destruct (last _).
Qed.

Lemma observed_quantity_last snap w l1 e l2 :
  scan snap = l1 ++ e :: l2 →
  item_key lower e.2 = lower w →
  (∀ e', e' ∈ l2 → item_key lower e'.2 ≠ lower w) →
  observed_quantity lower snap w = item_quantity e.2.
Proof.
  intros Hscan Hkey Hlater. unfold observed_quantity, matching.
  rewrite Hscan, filter_app, filter_cons_True by done.
  assert (filter (λ e0, item_key lower e0.2 = lower w) l2 = []) as ->.
  { destruct (filter _ l2) as [|e' l] eqn:Hf; [done|].
    assert (e' ∈ filter (λ e0, item_key lower e0.2 = lower w) l2) as He'
      by (rewrite Hf; left).
    apply list_elem_of_filter in He' as [He1 He2].
    by destruct (Hlater e' He2). }
  by rewrite last_snoc.
Qed.

End CurrentStockFacts.

(** ** The detector *)

Section DetectorFacts.

Context (lower : string → string).
Context (http_post : list effect → post_outcome).

Lemma cycle_trace_app wh tr events1 events2 :
  cycle_trace http_post wh tr (events1 ++ events2) =
  cycle_trace http_post wh (cycle_trace http_post wh tr events1) events2.
Proof.
  revert tr. induction events1 as [|e events1 IH]; intros tr; simpl; [done|].
  apply IH.
Qed.

Lemma check_item_run snap w s :
  check_item lower http_post (build_current_stock lower snap) w s =
  (Return tt,
   {| self := with_previous_stock (self s)
                (observe lower snap (previous_stock (self s)) w);
      trace := cycle_trace http_post (discord_webhook (self s)) (trace s)
                 (trigger_event lower snap (previous_stock (self s)) w) |}).
Proof.
  unfold check_item, trigger_event, observe, current_quantity, current_category.
  erewrite bind_return by reflexivity.
  destruct (decide (0 < _)) as [Hpos|Hnpos].
  - unfold mbind, M_bind, print, emit, set_previous_stock. simpl.
    rewrite send_discord_notification_run. simpl.
    by rewrite <- app_assoc.
  - erewrite bind_return by reflexivity. reflexivity.
Qed.

Lemma for_each_check_item_run snap wl s :
  for_each wl (check_item lower http_post (build_current_stock lower snap)) s =
  (Return tt,
   {| self := with_previous_stock (self s)
                (foldl (observe lower snap) (previous_stock (self s)) wl);
      trace := cycle_trace http_post (discord_webhook (self s)) (trace s)
                 (trigger_events lower snap wl (previous_stock (self s))) |}).
Proof.
  revert s. induction wl as [|w wl IH]; intros s; simpl.
  - by destruct s as [[] ?].
  - erewrite bind_return by apply check_item_run.
    rewrite IH. simpl. by rewrite cycle_trace_app.
Qed.

(** The detector as a function: it always returns, the new observation state
    is a fold over the watchlist, and the trace grows by the effects of the
    trigger events. *)
Lemma check_stock_changes_run snap s :
  check_stock_changes lower http_post snap s =
  (Return tt,
   {| self := with_previous_stock (self s)
                (foldl (observe lower snap) (previous_stock (self s))
                       (watchlist (self s)));
      trace := cycle_trace http_post (discord_webhook (self s)) (trace s)
                 (trigger_events lower snap (watchlist (self s))
                                 (previous_stock (self s))) |}).
Proof.
  unfold check_stock_changes.
  erewrite bind_return by reflexivity.
  destruct (watchlist (self s)) as [|w wl] eqn:Hwl.
  - by destruct s as [[] ?].
  - by rewrite for_each_check_item_run.
Qed.

End DetectorFacts.

(** ** The observation state *)

Section StateFacts.

Context (lower : string → string).

Lemma dom_foldl_observe snap wl (ps : gmap string Z) :
  dom (foldl (observe lower snap) ps wl) =
  dom ps ∪ list_to_set (lower <$> wl).
Proof.
  revert ps. induction wl as [|w wl IH]; intros ps; simpl.
  - set_solver.
  - rewrite IH. unfold observe. rewrite dom_insert_L. set_solver.
Qed.

Lemma lookup_foldl_observe snap wl (ps : gmap string Z) w :
  w ∈ wl →
  foldl (observe lower snap) ps wl !! lower w =
  Some (current_quantity lower snap w).
Proof.
  induction wl as [|w' wl IH] using rev_ind; [by intros ?%elem_of_nil|].
  intros Hw. rewrite foldl_snoc. unfold observe at 1.
  destruct (decide (lower w' = lower w)) as [Heq|Hne].
  - rewrite Heq, lookup_insert_eq. unfold current_quantity. by rewrite Heq.
  - rewrite lookup_insert_ne by done. apply IH.
    apply elem_of_app in Hw as [Hw|Hw]; [done|].
    apply list_elem_of_singleton in Hw. by subst.
Qed.

Lemma self_get_all_items_data {B} `{!Body B}
    (http_get : string → get_outcome B) s :
  self (get_all_items_data http_get s).2 = self s.
Proof.
  unfold get_all_items_data.
  destruct (fetch_loop_run http_get categories [] s) as (new & -> & _). done.
Qed.

Lemma self_display_all_items snap s :
  self (display_all_items lower snap s).2 = self s.
Proof. by rewrite display_all_items_run. Qed.

(** No key is ever stored that is not a lower-cased watchlist name. *)
Lemma reachable_dom s :
  reachable lower s →
  dom (previous_stock (self s)) ⊆ list_to_set (lower <$> watchlist (self s)).
Proof.
  induction 1 as [wl wh|B HB http_get s _ IH|http_post snap s _ IH|snap s _ IH].
  - simpl. set_solver.
  - by rewrite self_get_all_items_data.
  - rewrite check_stock_changes_run. simpl. rewrite dom_foldl_observe.
    set_solver.
  - by rewrite self_display_all_items.
Qed.










End StateFacts.

(** ** Trigger events and what they leave in the trace *)

Section EventFacts.

Context (lower : string → string).
Context (http_post : list effect → post_outcome).

Lemma alerts_notification_effects wh tr e :
  alerts (notification_effects http_post wh tr e) = [].
Proof.
  destruct wh as [url|]; [|done]. unfold notification_effects, notification_log.
  destruct (http_post tr) as [|status_code]; [done|].
  by destruct (decide (status_code = 204)).
Qed.

Lemma posts_notification_effects wh tr e :
  posts (notification_effects http_post wh tr e) =
  match wh with Some url => [(url, e)] | None => [] end.
Proof. by destruct wh. Qed.

(** The trace of a cycle extends the trace before it; the alert lines added
    are those of the events, in order, and so are the requests when a webhook
    is configured: one request per event, none otherwise. *)
Lemma cycle_trace_extends wh tr events :
  ∃ new, cycle_trace http_post wh tr events = tr ++ new ∧
         alerts new = alert_of <$> events ∧
         posts new = match wh with
                     | Some url => pair url <$> events
                     | None => []
                     end.
Proof.
  revert tr. induction events as [|e events IH]; intros tr; simpl.
  - exists []. rewrite app_nil_r. by destruct wh.
  - destruct (IH (tr ++ event_effects http_post wh tr e))
      as (new & Htr & Halerts & Hposts).
    exists (event_effects http_post wh tr e ++ new). split_and!.
    + by rewrite Htr, app_assoc.
    + unfold alerts in *. rewrite omap_app, Halerts. unfold event_effects.
      simpl. fold (alerts (notification_effects http_post wh
                             (tr ++ [alert_line e]) e)).
      by rewrite alerts_notification_effects.
    + unfold posts in *. rewrite omap_app, Hposts. unfold event_effects.
      simpl. by destruct wh.
Qed.

Lemma cycle_trace_no_webhook tr events :
  cycle_trace http_post None tr events = tr ++ (alert_line <$> events).
Proof.
  revert tr. induction events as [|e events IH]; intros tr; simpl.
  - by rewrite app_nil_r.
  - rewrite IH. unfold event_effects. simpl. by rewrite <- app_assoc.
Qed.

Lemma posts_alert_lines events : posts (alert_line <$> events) = [].
Proof. induction events as [|e events IH]; [done|]. exact IH. Qed.

Lemma posts_app tr1 tr2 : posts (tr1 ++ tr2) = posts tr1 ++ posts tr2.
Proof. apply omap_app. Qed.

Lemma elem_of_alerts tr w q c :
  (w, q, c) ∈ alerts tr ↔ Print (MsgAlert w q c) ∈ tr.
Proof.
  unfold alerts. rewrite list_elem_of_omap. split.
  - intros (e & He & Heq).
    destruct e as [[]| |]; simplify_eq. done.
  - intros He. by exists (Print (MsgAlert w q c)).
Qed.

Lemma elem_of_posts tr url p :
  (url, p) ∈ posts tr ↔ HttpPost url p ∈ tr.
Proof.
  unfold posts. rewrite list_elem_of_omap. split.
  - intros (e & He & Heq).
    destruct e as [[]| |]; simplify_eq. done.
  - intros He. by exists (HttpPost url p).
Qed.

(** An event belongs to a watchlist entry in stock and carries the quantity
    and category the detector read for it. *)
Lemma elem_of_trigger_events snap wl ps e :
  e ∈ trigger_events lower snap wl ps →
  embed_item_name e ∈ wl ∧
  0 < current_quantity lower snap (embed_item_name e) ∧
  embed_quantity e = current_quantity lower snap (embed_item_name e) ∧
  embed_category e = current_category lower snap (embed_item_name e).
Proof.
  revert ps. induction wl as [|w wl IH]; intros ps; simpl.
  - intros H. by apply elem_of_nil in H.
  - rewrite elem_of_app. intros [He|He].
    + unfold trigger_event in He. destruct (decide (0 < _)) as [Hpos|];
        [|by apply elem_of_nil in He].
      apply list_elem_of_singleton in He as ->. simpl.
      split_and!; [left|done..].
    + destruct (IH _ He) as (? & ? & ? & ?). split_and!; [by right|done..].
Qed.

(** Every watchlist entry in stock has its event, whatever was observed
    before. *)
Lemma trigger_events_complete snap wl ps w :
  w ∈ wl → 0 < current_quantity lower snap w →
  ∃ e, e ∈ trigger_events lower snap wl ps ∧ embed_item_name e = w.
Proof.
  intros Hw Hpos. revert ps.
  induction wl as [|w' wl IH]; intros ps; [by apply elem_of_nil in Hw|].
  simpl. apply elem_of_cons in Hw as [->|Hw].
  - unfold trigger_event. rewrite decide_True by done.
    eexists. split; [apply elem_of_app; left; left|done].
  - destruct (IH Hw (observe lower snap ps w')) as (e & He & Hname).
    exists e. split; [apply elem_of_app; by right|done].
Qed.

End EventFacts.

(** ** Properties of the detector and the notifier *)

(** C1: in a detector pass, a watched name gets a trigger event (the alert
    line and, with a webhook configured, a dispatch to it) if and only if
    the current quantity read for it from the snapshot is positive.  This
    holds from every earlier observation state, so an item that stays in stock
    triggers in every cycle; a name that no record carries has quantity 0 and
    does not trigger, and when the records of the name agree on a quantity,
    that is the quantity tested. *)
Theorem trigger_iff_in_stock lower http_post snap s w :
  w ∈ watchlist (self s) →
  ∃ new,
    (check_stock_changes lower http_post snap s).1 = Return tt ∧
    trace (check_stock_changes lower http_post snap s).2 = trace s ++ new ∧
    ((∃ q c, Print (MsgAlert w q c) ∈ new) ↔
     0 < current_quantity lower snap w) ∧
    (∀ q c, Print (MsgAlert w q c) ∈ new →
            q = current_quantity lower snap w ∧
            c = current_category lower snap w) ∧
    (∀ url, discord_webhook (self s) = Some url →
            ((∃ p, HttpPost url p ∈ new ∧ embed_item_name p = w) ↔
             0 < current_quantity lower snap w)) ∧
    ((∀ e, e ∈ scan snap → item_key lower e.2 ≠ lower w) →
     current_quantity lower snap w = 0) ∧
    (∀ q, (∃ e, e ∈ scan snap ∧ item_key lower e.2 = lower w) →
          (∀ e, e ∈ scan snap → item_key lower e.2 = lower w →
                item_quantity e.2 = q) →
          current_quantity lower snap w = q).
Proof.
  intros Hw. rewrite check_stock_changes_run. simpl.
  destruct (cycle_trace_extends http_post (discord_webhook (self s)) (trace s)
              (trigger_events lower snap (watchlist (self s))
                              (previous_stock (self s))))
    as (new & Htr & Halerts & Hposts).
  exists new. split_and!; [done|done|..].
  - split.
    + intros (q & c & Hin). apply elem_of_alerts in Hin.
      rewrite Halerts in Hin. apply list_elem_of_fmap in Hin as (e & Heq & He).
      apply elem_of_trigger_events in He as (_ & Hpos & _).
      unfold alert_of in Heq. by simplify_eq.
    + intros Hpos.
      destruct (trigger_events_complete lower snap _ (previous_stock (self s))
                  w Hw Hpos) as (e & He & Hname).
      exists (embed_quantity e), (embed_category e).
      apply elem_of_alerts. rewrite Halerts. apply list_elem_of_fmap.
      exists e. split; [|done]. unfold alert_of. by rewrite Hname.
  - intros q c Hin. apply elem_of_alerts in Hin.
    rewrite Halerts in Hin. apply list_elem_of_fmap in Hin as (e & Heq & He).
    apply elem_of_trigger_events in He as (_ & _ & Hq & Hc).
    unfold alert_of in Heq. by simplify_eq.
  - intros url Hurl. rewrite Hurl in Hposts. split.
    + intros (p & Hin & Hname). apply elem_of_posts in Hin.
      rewrite Hposts in Hin. apply list_elem_of_fmap in Hin as (e & Heq & He).
      apply elem_of_trigger_events in He as (_ & Hpos & _). by simplify_eq.
    + intros Hpos.
      destruct (trigger_events_complete lower snap _ (previous_stock (self s))
                  w Hw Hpos) as (e & He & Hname).
      exists e. split; [|done]. apply elem_of_posts. rewrite Hposts.
      apply list_elem_of_fmap. by exists e.
  - intros Habs. by apply current_quantity_absent.
  - intros q. apply current_quantity_agreed.
Qed.

(** The sunflower of the concrete run is watched and in stock. *)
Lemma trigger_iff_in_stock_witness :
  "sunFlower"%string ∈ watchlist (self ex_state) ∧
  ∃ new,
    trace (check_stock_changes str_lower ex_post ex_snapshot ex_state).2 =
      trace ex_state ++ new ∧
    ((∃ q c, Print (MsgAlert "sunFlower" q c) ∈ new) ↔
     0 < current_quantity str_lower ex_snapshot "sunFlower").
Proof.
  assert ("sunFlower"%string ∈ watchlist (self ex_state)) as Hw
    by (right; right; left).
  split; [exact Hw|].
  destruct (trigger_iff_in_stock str_lower ex_post ex_snapshot ex_state
              "sunFlower" Hw) as (new & _ & Htr & Hiff & _).
  exists new. split; [exact Htr|exact Hiff].
Defined.

(** C3, as the code has it: for a name carried by several records, the
    dictionary of current stock holds the quantity and the category of the
    last of them in scan order, and these are what the detector uses. *)
Theorem last_match_taken lower snap w :
  last_match_wins lower snap (lower w) ∧
  (current_quantity lower snap w, current_category lower snap w) =
  default (0, "unknown"%string) (last_match lower snap (lower w)).
Proof.
  unfold last_match_wins, current_quantity, current_category, current_data.
  rewrite lookup_build_current_stock. split; [done|].
  by destruct (last_match lower snap (lower w)) as [[q c]|].
Qed.

(** C3 as stated fails: the carrot is first listed with quantity 0 under
    seeds and last with quantity 5 under gear; the detector alerts for 5 in
    gear. *)
Lemma first_match_not_taken :
  ¬ first_match_wins str_lower ex_snapshot "carrot" ∧
  first_match str_lower ex_snapshot "carrot" = Some (0, "seeds"%string) ∧
  (current_quantity str_lower ex_snapshot "carrot",
   current_category str_lower ex_snapshot "carrot") = (5, "gear"%string).
Proof.
  split_and!; [|by vm_compute..].
  unfold first_match_wins. by vm_compute.
Qed.

(** C7: without a webhook the notifier does nothing, for every event; a
    detector pass then adds to the trace the alert lines of its trigger
    events and nothing else, so no request is sent and every watched name in
    stock is still alerted on the console. *)
Theorem no_webhook_no_dispatch lower http_post snap s :
  discord_webhook (self s) = None →
  (∀ item_name category quantity previous,
     send_discord_notification http_post item_name category quantity previous s
     = (Return tt, s)) ∧
  trace (check_stock_changes lower http_post snap s).2 =
    trace s ++ (alert_line <$> trigger_events lower snap (watchlist (self s))
                                              (previous_stock (self s))) ∧
  posts (trace (check_stock_changes lower http_post snap s).2) =
    posts (trace s) ∧
  (∀ w, w ∈ watchlist (self s) → 0 < current_quantity lower snap w →
        Print (MsgAlert w (current_quantity lower snap w)
                          (current_category lower snap w))
        ∈ trace (check_stock_changes lower http_post snap s).2).
Proof.
  intros Hnone.
  assert (trace (check_stock_changes lower http_post snap s).2 =
          trace s ++ (alert_line <$> trigger_events lower snap
                        (watchlist (self s)) (previous_stock (self s))))
    as Htr.
  { rewrite check_stock_changes_run. simpl.
    by rewrite Hnone, cycle_trace_no_webhook. }
  split_and!.
  - intros. rewrite send_discord_notification_run, Hnone. simpl.
    by rewrite app_nil_r, state_eta.
  - done.
  - by rewrite Htr, posts_app, posts_alert_lines, app_nil_r.
  - intros w Hw Hpos. rewrite Htr. apply elem_of_app. right.
    destruct (trigger_events_complete lower snap _ (previous_stock (self s))
                w Hw Hpos) as (e & He & Hname).
    apply list_elem_of_fmap. exists e. split; [|done].
    apply elem_of_trigger_events in He as Hspec.
    destruct Hspec as (_ & _ & Hq & Hc). unfold alert_line.
    by rewrite Hq, Hc, Hname.
Qed.

Lemma no_webhook_no_dispatch_witness :
  discord_webhook (self ex_state_silent) = None ∧
  trace (check_stock_changes str_lower ex_post ex_snapshot ex_state_silent).2 =
    [Print (MsgAlert "carrot" 5 "gear"); Print (MsgAlert "sunFlower" 3 "seeds")].
Proof.
  split; [reflexivity|].
  destruct (no_webhook_no_dispatch str_lower ex_post ex_snapshot
              ex_state_silent eq_refl) as (_ & -> & _).
  by vm_compute.
Defined.

(** C8: with a webhook configured, a dispatch is one request followed by one
    console line.  The line reports success exactly when the answer is status
    204, reports the status for any other answer and the error when the
    request raises.  The notifier returns normally in every case and leaves
    [self] as it was; a whole detector pass returns normally too, sends one
    request per trigger event, and ends in an observation state on which the
    answers of the webhook have no influence. *)
Theorem dispatch_outcome http_post item_name category quantity previous s url :
  discord_webhook (self s) = Some url →
  (∃ line,
     send_discord_notification http_post item_name category quantity previous s
     = (Return tt,
        {| self := self s;
           trace := trace s ++
             [HttpPost url (mkEmbed item_name category quantity previous);
              Print line] |}) ∧
     (line = MsgNotificationSent item_name category ↔
      http_post (trace s) = PostResponse 204) ∧
     (http_post (trace s) = PostRaises →
      line = MsgNotificationError RequestException) ∧
     (∀ status_code, http_post (trace s) = PostResponse status_code →
                     status_code ≠ 204 →
                     line = MsgNotificationFailed status_code)) ∧
  (∀ lower snap, ∃ new,
     check_stock_changes lower http_post snap s =
     (Return tt,
      {| self := with_previous_stock (self s)
                   (foldl (observe lower snap) (previous_stock (self s))
                          (watchlist (self s)));
         trace := trace s ++ new |}) ∧
     posts new = pair url <$> trigger_events lower snap (watchlist (self s))
                                             (previous_stock (self s))).
Proof.
  intros Hurl. split.
  - exists (notification_log (http_post (trace s)) item_name category).
    split_and!.
    + by rewrite send_discord_notification_run, Hurl.
    + unfold notification_log.
      destruct (http_post (trace s)) as [|status_code]; [done|].
      destruct (decide (status_code = 204)) as [->|Hne]; [done|].
      split; [done|]. intros [= ->]. done.
    + by intros ->.
    + intros status_code -> Hne. unfold notification_log.
      by rewrite decide_False.
  - intros lower snap. rewrite check_stock_changes_run.
    destruct (cycle_trace_extends http_post (discord_webhook (self s))
                (trace s)
                (trigger_events lower snap (watchlist (self s))
                                (previous_stock (self s))))
      as (new & -> & _ & Hposts).
    exists new. by rewrite Hurl in Hposts.
Qed.

(** In the concrete run the pass completes with one request for each of
    the two items in stock. *)
Lemma dispatch_outcome_witness :
  discord_webhook (self ex_state) = Some ex_url ∧
  ∃ new,
    (check_stock_changes str_lower ex_post ex_snapshot ex_state).1 = Return tt ∧
    trace (check_stock_changes str_lower ex_post ex_snapshot ex_state).2 =
      trace ex_state ++ new ∧
    posts new = [(ex_url, mkEmbed "carrot" "gear" 5 0);
                 (ex_url, mkEmbed "sunFlower" "seeds" 3 0)].
Proof.
  split; [reflexivity|].
  destruct (dispatch_outcome ex_post "carrot" "gear" 5 0 ex_state ex_url eq_refl)
    as [_ Hpass].
  destruct (Hpass str_lower ex_snapshot) as (new & Hrun & Hposts).
  exists new. rewrite Hrun, Hposts. split_and!; [reflexivity..|].
  by vm_compute.
Defined.

(** C10: with an empty watchlist the detector returns at once: the state,
    trace included, is the one it was called in. *)
Theorem empty_watchlist_no_op lower http_post snap s :
  watchlist (self s) = [] →
  check_stock_changes lower http_post snap s = (Return tt, s).
Proof.
  intros Hwl. unfold check_stock_changes.
  erewrite bind_return by reflexivity. by rewrite Hwl.
Qed.

Lemma empty_watchlist_no_op_witness :
  watchlist (self ex_state_idle) = [] ∧
  check_stock_changes str_lower ex_post ex_snapshot ex_state_idle =
    (Return tt, ex_state_idle).
Proof.
  split; [reflexivity|].
  apply (empty_watchlist_no_op str_lower ex_post ex_snapshot ex_state_idle).
  reflexivity.
Defined.

(** C2: in every state the monitor can reach, a detector pass leaves the
    watchlist as it is and an observation state whose keys are exactly the
    lower-cased watchlist names; each watched name maps to the quantity that
    the snapshot of the pass shows for it: the quantity of the last scanned
    record that carries the name up to letter case, so the one quantity of
    its records when they agree, and 0 when no record carries the name. *)
Theorem observation_state_keys lower http_post snap s :
  reachable lower s →
  let s' := (check_stock_changes lower http_post snap s).2 in
  watchlist (self s') = watchlist (self s) ∧
  dom (previous_stock (self s')) =@{gset string}
    list_to_set (lower <$> watchlist (self s)) ∧
  (∀ w, w ∈ watchlist (self s) →
        previous_stock (self s') !! lower w =
        Some (current_quantity lower snap w)) ∧
  (∀ w, w ∈ watchlist (self s) →
        (∀ e, e ∈ scan snap → item_key lower e.2 ≠ lower w) →
        previous_stock (self s') !! lower w = Some 0) ∧
  (∀ w, w ∈ watchlist (self s) →
        previous_stock (self s') !! lower w =
        Some (observed_quantity lower snap w)) ∧
  (∀ w l1 e l2, w ∈ watchlist (self s) →
        scan snap = l1 ++ e :: l2 →
        item_key lower e.2 = lower w →
        (∀ e', e' ∈ l2 → item_key lower e'.2 ≠ lower w) →
        previous_stock (self s') !! lower w = Some (item_quantity e.2)) ∧
  (∀ w q, w ∈ watchlist (self s) →
        (∃ e, e ∈ scan snap ∧ item_key lower e.2 = lower w) →
        (∀ e, e ∈ scan snap → item_key lower e.2 = lower w →
              item_quantity e.2 = q) →
        previous_stock (self s') !! lower w = Some q).
Proof.
  intros Hreach s'. unfold s'. rewrite check_stock_changes_run. simpl.
  split_and!.
  - done.
  - rewrite dom_foldl_observe. apply reachable_dom in Hreach. set_solver.
  - intros w Hw. by apply lookup_foldl_observe.
  - intros w Hw Habs. rewrite lookup_foldl_observe by done.
    by destruct (current_quantity_absent lower snap w Habs) as [-> _].
  - intros w Hw. rewrite lookup_foldl_observe by done.
    by rewrite current_quantity_observed.
  - intros w l1 e l2 Hw Hscan Hkey Hlater.
    rewrite lookup_foldl_observe by done.
    rewrite current_quantity_observed.
    by rewrite (observed_quantity_last lower snap w l1 e l2).
  - intros w q Hw Hsome Hall. rewrite lookup_foldl_observe by done.
    by rewrite (current_quantity_agreed lower snap w q).
Qed.

(** The first pass of the concrete run stores 5 for the carrot, the
    quantity of its last record, 3 for the sunflower and 0 for the tulip
    that the shop does not list. *)
Lemma observation_state_keys_witness :
  let s' := (check_stock_changes str_lower ex_post ex_snapshot ex_state).2 in
  reachable str_lower ex_state ∧
  dom (previous_stock (self s')) =@{gset string}
    list_to_set (str_lower <$> watchlist (self ex_state)) ∧
  previous_stock (self s') !! "carrot"%string = Some 5 ∧
  previous_stock (self s') !! "sunflower"%string = Some 3 ∧
  previous_stock (self s') !! "tulip"%string = Some 0.
Proof.
  intros s'.
  assert (reachable str_lower ex_state) as Hreach by apply reachable_init.
  destruct (observation_state_keys str_lower ex_post ex_snapshot ex_state
              Hreach) as (_ & Hdom & _ & Habs & _ & Hlast & Hall).
  split_and!; [exact Hreach|exact Hdom|..].
  - apply (Hlast "carrot"%string
             [("seeds", mkItem (Some "Carrot") (Some 0));
              ("seeds", mkItem (Some "Sunflower") (Some 3))]%string
             ("gear", mkItem (Some "CARROT") (Some 5))%string []).
    + left.
    + reflexivity.
    + reflexivity.
    + intros e' He'. by apply elem_of_nil in He'.
  - apply (Hall "sunFlower"%string 3).
    + right. right. left.
    + exists ("seeds", mkItem (Some "Sunflower") (Some 3))%string.
      split; [right; left|reflexivity].
    + intros e He Hkey. vm_compute in He.
      repeat (apply elem_of_cons in He as [->|He];
              [first [reflexivity|discriminate Hkey]|]).
      by apply elem_of_nil in He.
  - apply (Habs "Tulip"%string); [right; left|].
    intros e He. vm_compute in He.
    repeat (apply elem_of_cons in He as [->|He]; [discriminate|]).
    by apply elem_of_nil in He.
Defined.



(** ** Properties of the fetcher *)

(** C4 as stated fails: the answer for the event shop has status 200 and a
    body that is JSON but no list of item records, a malformed body; the
    fetcher stores it as it is, not the empty list. *)
Lemma malformed_body_stored :
  "eventshop"%string ∈ categories ∧
  ex_get_json (fetch_url "eventshop") =
    GetResponse 200 (Some (JObject [("error", JString "busy")]%string)) ∧
  as_items (JObject [("error", JString "busy")]%string) = None ∧
  fetch_failed_or_malformed (ex_get_json (fetch_url "eventshop")) ∧
  (∃ snap,
     (get_all_items_data ex_get_json ex_state).1 = Return snap ∧
     dict_get "eventshop"%string snap =
       Some (JObject [("error", JString "busy")]%string) ∧
     dict_get "eventshop"%string snap ≠ Some (JArray [])) ∧
  ¬ malformed_mapped_to_empty ex_get_json ex_state.
Proof.
  split_and!.
  - compute_done.
  - reflexivity.
  - reflexivity.
  - right. reflexivity.
  - eexists. split_and!; [vm_compute; reflexivity|reflexivity|discriminate].
  - intros Hclaim.
    destruct (Hclaim "eventshop"%string) as (snap & Hrun & Hget).
    + compute_done.
    + right. reflexivity.
    + vm_compute in Hrun. injection Hrun as <-. vm_compute in Hget.
      discriminate Hget.
Qed.

(** C4, as the code has it: a fetch always returns a snapshot, and its keys
    are the fixed categories, in their order.  Every category is requested;
    it is mapped to the empty list when the request raised, the status was
    not 200 or the body did not parse as JSON, and to the parsed body of a 200
    answer, whatever the shape of that body and whatever happened to the
    other categories. *)
Theorem fetch_all_categories {B} `{!Body B}
    (http_get : string → get_outcome B) s :
  ∃ snap new,
    get_all_items_data http_get s =
      (Return snap, {| self := self s; trace := trace s ++ new |}) ∧
    snap.*1 = categories ∧
    (∀ c, c ∈ categories →
          HttpGet (fetch_url c) ∈ new ∧
          dict_get c snap = Some (fetched (http_get (fetch_url c))) ∧
          (fetch_failed (http_get (fetch_url c)) →
           dict_get c snap = Some no_items) ∧
          (∀ body, http_get (fetch_url c) = GetResponse 200 (Some body) →
                   dict_get c snap = Some body)).
Proof.
  unfold get_all_items_data.
  destruct (fetch_loop_run http_get categories [] s) as (new & Hrun & Hget).
  rewrite foldl_dict_set_fresh in Hrun;
    [|apply NoDup_categories|by intros c _ ?%elem_of_nil].
  rewrite app_nil_l in Hrun.
  eexists _, new. split_and!; [exact Hrun|..].
  - apply keys_fmap_pair.
  - intros c Hc.
    assert (dict_get c
              ((λ c, (c, fetched (http_get (fetch_url c)))) <$> categories)
            = Some (fetched (http_get (fetch_url c)))) as Hlookup
      by (by apply (dict_get_fmap (λ c, fetched (http_get (fetch_url c))))).
    split_and!.
    + by apply Hget.
    + done.
    + intros Hfail. by rewrite Hlookup, fetched_failed.
    + intros body Hok. by rewrite Hlookup, Hok.
Qed.

(** In the concrete fetch the request for seeds raises, the body for eggs
    is no JSON and the status for cosmetics is 503: the three are mapped to
    the empty list; gear keeps its record and the event shop the object it
    was answered. *)
Lemma fetch_all_categories_witness :
  "seeds"%string ∈ categories ∧
  fetch_failed (ex_get_json (fetch_url "seeds")) ∧
  fetch_failed (ex_get_json (fetch_url "eggs")) ∧
  fetch_failed (ex_get_json (fetch_url "cosmetics")) ∧
  ∃ snap new,
    get_all_items_data ex_get_json ex_state =
      (Return snap, {| self := self ex_state; trace := trace ex_state ++ new |}) ∧
    dict_get "seeds"%string snap = Some (JArray []) ∧
    snap = [("seeds", JArray []);
            ("gear", JArray [JObject [("name", JString "Trowel");
                                      ("quantity", JNumber 2)]]);
            ("eggs", JArray []); ("cosmetics", JArray []);
            ("eventshop", JObject [("error", JString "busy")])]%string.
Proof.
  assert (fetch_failed (ex_get_json (fetch_url "seeds"))) as Hseeds
    by exact I.
  split_and!; [compute_done|exact Hseeds|right; reflexivity|
               left; discriminate|].
  destruct (fetch_all_categories ex_get_json ex_state)
    as (snap & new & Hrun & _ & Hcat).
  destruct (Hcat "seeds"%string) as (_ & _ & Hfail & _); [compute_done|].
  exists snap, new. split_and!; [exact Hrun|exact (Hfail Hseeds)|].
  assert ((get_all_items_data ex_get_json ex_state).1 = Return snap) as Hsnap
    by (rewrite Hrun; reflexivity).
  vm_compute in Hsnap. injection Hsnap as <-. reflexivity.
Defined.

(** ** Properties of the display *)

(** C5, as the code has it: the aggregate line lists the records of the
    snapshot whose name is on the watchlist up to letter case, each as
    "name (category)", in scan order, once for each such record and whatever
    their quantity; the line comes last among the lines modelled (only the
    closing rule follows it), and without such a record it says that no
    watched item is available. *)
Theorem aggregate_lists_watched_records lower snap s :
  let found :=
    watched_items_found (display_listing lower (watchlist (self s)) snap) in
  (∀ x, x ∈ found ↔
        ∃ e, e ∈ scan snap ∧
             lower (display_name e.2) ∈ lower <$> watchlist (self s) ∧
             x = found_entry e) ∧
  (display_all_items lower snap s).1 = Return tt ∧
  self (display_all_items lower snap s).2 = self s ∧
  last (trace (display_all_items lower snap s).2) =
    Some (Print (match found with
                 | [] => MsgNoWatchedItems
                 | _ => MsgWatchedItemsFound found
                 end)) ∧
  found =
    found_entry <$>
      filter (λ e, lower (display_name e.2) ∈ lower <$> watchlist (self s))
             (scan snap).
Proof.
  intros found. split_and!.
  - intros x. unfold found. rewrite watched_items_found_scan.
    rewrite list_elem_of_fmap. split.
    + intros (e & -> & He). apply list_elem_of_filter in He as [Hw He].
      exists e. split_and!; [done| |done].
      unfold watched_entry, is_watched in Hw. by apply bool_decide_unpack in Hw.
    + intros (e & He & Hw & ->). exists e. split; [done|].
      apply list_elem_of_filter. split; [|done].
      unfold watched_entry, is_watched. by apply bool_decide_pack.
  - by rewrite display_all_items_run.
  - by rewrite display_all_items_run.
  - rewrite display_all_items_run. simpl. fold found.
    rewrite !last_app. simpl. by destruct found.
  - unfold found. rewrite watched_items_found_scan. f_equal.
    apply list_filter_iff. intros e. unfold watched_entry, is_watched.
    split; [apply bool_decide_unpack|apply bool_decide_pack].
Qed.

(** C5 as stated fails: the sold-out tulip is listed. *)
Lemma sold_out_item_listed :
  ¬ found_only_in_stock str_lower ex_watchlist ex_snapshot_sold_out ∧
  watched_items_found
    (display_listing str_lower ex_watchlist ex_snapshot_sold_out) =
    ["Tulip (seeds)"%string] ∧
  current_quantity str_lower ex_snapshot_sold_out "Tulip" = 0.
Proof.
  split_and!; [|by vm_compute..].
  intros Hclaim.
  specialize (Hclaim ("seeds"%string, mkItem (Some "Tulip"%string) (Some 0))).
  assert (0 < 0) as Habs; [|lia].
  apply Hclaim; vm_compute; left.
Qed.

(** ** The auto-refresh wait *)

Section WaitFacts.

Context (running : Z → bool).

(** The loop sleeps [k] times, one second each, for some [k] up to
    [remaining]; the flag was read as true before each sleep, and the loop
    ended because the count was used up or because the flag was read as
    false. *)
Lemma wait_loop_run remaining w :
  ∃ k : nat,
    (k ≤ remaining)%nat ∧
    now (wait_loop running remaining w) = now w + 1000 * Z.of_nat k ∧
    sleeps (wait_loop running remaining w) = sleeps w ++ replicate k 1000 ∧
    (∀ i : nat, (i < k)%nat → running (now w + 1000 * Z.of_nat i) = true) ∧
    (k = remaining ∨ running (now w + 1000 * Z.of_nat k) = false).
Proof.
  revert w. induction remaining as [|n IH]; intros w; simpl.
  - exists 0%nat. rewrite app_nil_r, Z.add_0_r.
    split_and!; [done..|lia|by left].
  - destruct (running (now w)) eqn:Hrun.
    + destruct (IH {| now := now w + 1000; sleeps := sleeps w ++ [1000] |})
        as (k & Hk & Hnow & Hsleeps & Hchecks & Hend).
      simpl in *. exists (S k). split_and!.
      * lia.
      * rewrite Hnow. lia.
      * rewrite Hsleeps, <- app_assoc. done.
      * intros [|i] Hi; [by rewrite Z.add_0_r|].
        replace (now w + 1000 * Z.of_nat (S i)) with (now w + 1000 + 1000 * Z.of_nat i) by lia.
        apply Hchecks. lia.
      * destruct Hend as [->|Hend]; [by left|right].
        by replace (now w + 1000 * Z.of_nat (S k)) with (now w + 1000 + 1000 * Z.of_nat k) by lia.
    + exists 0%nat. rewrite app_nil_r, !Z.add_0_r.
      split_and!; [lia|done|done|lia|by right].
Qed.

End WaitFacts.

(** C9: the wait sleeps one second at a time and reads the running flag
    before each sleep.  When a quit at time [quit] makes every later read of
    the flag false, the wait is over less than one second after the later of
    its start and the quit, and never later than the full interval; if the
    quit came before the interval ran out, the guard of the main loop then
    reads false and the loop stops. *)
Theorem quit_ends_wait_within_a_second running remaining start quit :
  (∀ t, quit ≤ t → running t = false) →
  let w := auto_refresh_wait running remaining start in
  Forall (λ d, d ≤ 1000) (sleeps w) ∧
  now w = start + foldr Z.add 0 (sleeps w) ∧
  (∀ i : nat, (i < length (sleeps w))%nat → running (start + 1000 * Z.of_nat i) = true) ∧
  now w < Z.max start quit + 1000 ∧
  now w ≤ start + 1000 * Z.max 0 remaining ∧
  (quit ≤ start + 1000 * remaining → loop_continues running w = false).
Proof.
  intros Hquit w. unfold w, auto_refresh_wait, loop_continues.
  destruct (wait_loop_run running (Z.to_nat remaining)
              {| now := start; sleeps := [] |})
    as (k & Hk & Hnow & Hsleeps & Hchecks & Hend).
  simpl in *. rewrite Hnow, Hsleeps. clear Hnow Hsleeps.
  assert (foldr Z.add 0 (replicate k 1000) = 1000 * Z.of_nat k) as Hsum.
  { clear. induction k as [|k IH]; simpl; [lia|]. rewrite IH. lia. }
  split_and!.
  - apply Forall_replicate. lia.
  - by rewrite Hsum.
  - intros i. rewrite length_replicate. apply Hchecks.
  - destruct k as [|k]; [lia|].
    assert (running (start + 1000 * Z.of_nat k) = true) as Hlast by (apply Hchecks; lia).
    destruct (decide (quit ≤ start + 1000 * Z.of_nat k)) as [Hle|Hgt].
    + rewrite Hquit in Hlast by done. done.
    + lia.
  - lia.
  - intros Hin. destruct Hend as [->|Hend]; [|done].
    apply Hquit. lia.
Qed.

(** A quit 2.5 seconds into a wait of 45: the wait is over at 3 seconds. *)
Lemma quit_ends_wait_within_a_second_witness :
  (∀ t, 2500 ≤ t → bool_decide (t < 2500) = false) ∧
  now (auto_refresh_wait (λ t, bool_decide (t < 2500)) 45 0) = 3000 ∧
  now (auto_refresh_wait (λ t, bool_decide (t < 2500)) 45 0)
    < Z.max 0 2500 + 1000.
Proof.
  assert (∀ t, 2500 ≤ t → bool_decide (t < 2500) = false) as Hquit
    by (intros t Ht; apply bool_decide_eq_false; lia).
  split_and!; [exact Hquit|reflexivity|].
  destruct (quit_ends_wait_within_a_second
              (λ t, bool_decide (t < 2500)) 45 0 2500 Hquit)
    as (_ & _ & _ & Hlt & _).
  exact Hlt.
Defined.

(** The run of the pass in full: the second request raises, its failure is
    logged, and the pass goes on to record all three names. *)
Example check_stock_changes_ex :
  check_stock_changes str_lower ex_post ex_snapshot ex_state =
  (Return tt,
   {| self := with_previous_stock (self ex_state)
                (<["sunflower"%string := 3]>
                   (<["tulip"%string := 0]> {["carrot"%string := 5]}));
      trace :=
        [Print (MsgAlert "carrot" 5 "gear");
         HttpPost ex_url (mkEmbed "carrot" "gear" 5 0);
         Print (MsgNotificationSent "carrot" "gear");
         Print (MsgAlert "sunFlower" 3 "seeds");
         HttpPost ex_url (mkEmbed "sunFlower" "seeds" 3 0);
         Print (MsgNotificationError RequestException)] |}).
Proof. by vm_compute. Qed.

(** The scenario of the repeated alert: the sunflower stays at 3 for two
    cycles; both cycles dispatch, the second quoting the 3 seen before. *)
Example repeat_alert_ex :
  let snap := [("seeds"%string, [mkItem (Some "Sunflower"%string) (Some 3)])] in
  let s0 := {| self := init ["Sunflower"%string] (Some ex_url); trace := [] |} in
  let s1 := (check_stock_changes str_lower ex_post snap s0).2 in
  let s2 := (check_stock_changes str_lower ex_post snap s1).2 in
  posts (trace s2) = [(ex_url, mkEmbed "Sunflower" "seeds" 3 0);
                      (ex_url, mkEmbed "Sunflower" "seeds" 3 3)] ∧
  previous_stock (self s2) = {["sunflower"%string := 3]}.
Proof. by vm_compute. Qed.

(** The scenario of the absent item: no trigger, and 0 is recorded. *)
Example absent_item_ex :
  let s0 := {| self := init ["Sunflower"%string] None; trace := [] |} in
  check_stock_changes str_lower ex_post ex_snapshot_sold_out s0 =
  (Return tt,
   {| self := with_previous_stock (self s0) {["sunflower"%string := 0]};
      trace := [] |}).
Proof. by vm_compute. Qed.

(** The display of the concrete run lists both carrots, the sold one too. *)
Example display_all_items_ex :
  trace (display_all_items str_lower ex_snapshot ex_state).2 =
  [Print (MsgItem true "Carrot" 0); Print MsgOutOfStock;
   Print (MsgItem true "Sunflower" 3); Print MsgInStock;
   Print (MsgItem true "CARROT" 5); Print MsgInStock;
   Print (MsgTotalItems 3);
   Print (MsgWatchedItemsFound
            ["Carrot (seeds)"; "Sunflower (seeds)"; "CARROT (gear)"]%string)].
Proof. by vm_compute. Qed.

Example auto_refresh_wait_ex :
  auto_refresh_wait (λ t, bool_decide (t < 2500)) 45 0 =
  {| now := 3000; sleeps := [1000; 1000; 1000] |}.
Proof. reflexivity. Qed.


Example str_lower_ex : str_lower "CaRrot 7" = "carrot 7"%string.
Proof. reflexivity. Qed.

(** ** Properties of the configuration loaders *)

Section ConfigFacts.

Context (strip : string → string).

Lemma read_watchlist_filter lines watchlist :
  read_watchlist strip lines watchlist =
  watchlist ++ filter watchlist_line (strip <$> lines).
Proof.
  revert watchlist. induction lines as [|line lines IH]; intros watchlist.
  - simpl. by rewrite app_nil_r.
  - rewrite fmap_cons, filter_cons. simpl.
    destruct (decide (watchlist_line (strip line))) as [Hkeep|Hkeep];
      destruct (watchlist_line (strip line)); try done; rewrite IH;
      by rewrite <- ?app_assoc.
Qed.

Lemma read_webhook_filter lines :
  read_webhook strip lines = head (filter webhook_line (strip <$> lines)).
Proof.
  induction lines as [|line lines IH]; [done|].
  rewrite fmap_cons, filter_cons. simpl.
  destruct (decide (webhook_line (strip line))) as [Hvalid|Hvalid];
    by destruct (webhook_line (strip line)).
Qed.

Lemma filter_none (keep : string → bool) lines :
  Forall (λ line, keep (strip line) = false) lines →
  filter keep (strip <$> lines) = [].
Proof.
  induction 1 as [|line lines Hline _ IH]; [done|].
  rewrite fmap_cons, filter_cons.
  destruct (decide (keep (strip line))) as [Hkeep|Hkeep]; [|exact IH].
  by rewrite Hline in Hkeep.
Qed.

End ConfigFacts.

(** X1: the watchlist is made of the stripped lines of the file, in their
    order and with repetitions, except the empty ones and those that start
    with a hash sign; so no entry is empty or a comment.  A read that fails
    part-way keeps the entries read until then, and a missing file gives the
    empty watchlist. *)
Theorem load_watchlist_entries strip :
  (∀ lines fails,
     (load_watchlist strip (File lines fails)).1 =
     filter watchlist_line (strip <$> lines)) ∧
  (load_watchlist strip NoFile).1 = [] ∧
  (∀ f w, w ∈ (load_watchlist strip f).1 →
          w ≠ EmptyString ∧ String.prefix "#" w = false).
Proof.
  assert (∀ lines fails,
            (load_watchlist strip (File lines fails)).1 =
            filter watchlist_line (strip <$> lines)) as Hfile
    by (intros; simpl; by rewrite read_watchlist_filter).
  split_and!; [done|done|].
  intros [|lines fails] w Hw; [by apply elem_of_nil in Hw|].
  rewrite Hfile in Hw. apply list_elem_of_filter in Hw as [Hkeep _].
  unfold watchlist_line in Hkeep. apply andb_prop_elim in Hkeep as [Hne Hhash].
  apply bool_decide_unpack in Hne. split; [done|].
  by destruct (String.prefix "#" w).
Qed.

(** X2: a watchlist file that is missing, or holds only blank lines and
    comments, gives a monitor whose detector pass does nothing, whatever the
    shop has. *)
Theorem no_entries_detector_idle strip lower http_post f webhook_file snap tr :
  no_entries strip f →
  (load_watchlist strip f).1 = [] ∧
  check_stock_changes lower http_post snap
    {| self := load_monitor strip f webhook_file; trace := tr |} =
  (Return tt, {| self := load_monitor strip f webhook_file; trace := tr |}).
Proof.
  intros Hnone.
  assert ((load_watchlist strip f).1 = []) as Hempty.
  { destruct f as [|lines fails]; [done|]. simpl in *.
    rewrite read_watchlist_filter. simpl. by apply filter_none. }
  split; [done|]. unfold check_stock_changes.
  erewrite bind_return by reflexivity.
  unfold load_monitor. simpl. by rewrite Hempty.
Qed.

Lemma no_entries_detector_idle_witness :
  no_entries str_strip (File ["# nothing yet"; "   "]%string false) ∧
  check_stock_changes str_lower ex_post ex_snapshot
    {| self := load_monitor str_strip (File ["# nothing yet"; "   "]%string false)
                 ex_webhook_file;
       trace := [] |} =
  (Return tt,
   {| self := load_monitor str_strip (File ["# nothing yet"; "   "]%string false)
                ex_webhook_file;
      trace := [] |}).
Proof.
  assert (no_entries str_strip (File ["# nothing yet"; "   "]%string false))
    as Hnone by (repeat constructor).
  split; [exact Hnone|].
  apply (no_entries_detector_idle str_strip str_lower ex_post _ ex_webhook_file
           ex_snapshot [] Hnone).
Defined.

(** X3: writing the loaded watchlist back, one entry a line, and loading it
    again gives the same watchlist, provided stripping a stripped line of the
    file changes nothing. *)
Theorem load_watchlist_reload strip lines fails :
  Forall (λ line, strip (strip line) = strip line) lines →
  (load_watchlist strip
     (File (load_watchlist strip (File lines fails)).1 false)).1 =
  (load_watchlist strip (File lines fails)).1.
Proof.
  intros Hidem. simpl. rewrite !read_watchlist_filter. simpl.
  induction Hidem as [|line lines Hline _ IH]; [done|].
  rewrite fmap_cons, filter_cons.
  destruct (decide (watchlist_line (strip line))) as [Hkeep|Hkeep]; [|done].
  rewrite fmap_cons, filter_cons, Hline, decide_True by done.
  by rewrite IH.
Qed.

Lemma load_watchlist_reload_witness :
  (load_watchlist str_strip ex_watchlist_file).1
    = ["carrot"; "Tulip"; "sunFlower"]%string ∧
  (load_watchlist str_strip
     (File (load_watchlist str_strip ex_watchlist_file).1 false)).1 =
  (load_watchlist str_strip ex_watchlist_file).1.
Proof.
  split; [reflexivity|].
  apply (load_watchlist_reload str_strip). repeat constructor.
Defined.

(** X4: the webhook is the first line of the file that, stripped, is not
    empty, is no comment and starts with the webhook prefix, and there is
    none without such a line.  Lines after it are not looked at, and a read
    that fails changes nothing in the result. *)
Theorem load_discord_webhook_first strip :
  (∀ lines fails,
     (load_discord_webhook strip (File lines fails)).1 =
     head (filter webhook_line (strip <$> lines))) ∧
  (load_discord_webhook strip NoFile).1 = None ∧
  (∀ before line after fails,
     Forall (λ l, webhook_line (strip l) = false) before →
     webhook_line (strip line) = true →
     (load_discord_webhook strip (File (before ++ line :: after) fails)).1 =
     Some (strip line)).
Proof.
  assert (∀ lines fails,
            (load_discord_webhook strip (File lines fails)).1 =
            head (filter webhook_line (strip <$> lines))) as Hfile.
  { intros lines fails. simpl. rewrite <- read_webhook_filter.
    by destruct (read_webhook strip lines). }
  split_and!; [done|done|].
  intros before line after fails Hbefore Hline. rewrite Hfile.
  rewrite fmap_app, filter_app, (filter_none strip _ before Hbefore).
  rewrite fmap_cons, filter_cons.
  destruct (decide (webhook_line (strip line))) as [Hvalid|Hvalid]; [done|].
  by rewrite Hline in Hvalid.
Qed.

(** X5: a webhook that was loaded starts with the webhook prefix; it is then
    neither empty nor a comment, and the notifier of a monitor built from the
    file sends its request to exactly that address. *)
Theorem loaded_webhook_used strip http_post watchlist_file f url
    item_name category quantity previous tr :
  (load_discord_webhook strip f).1 = Some url →
  String.prefix webhook_prefix url = true ∧
  url ≠ EmptyString ∧
  String.prefix "#" url = false ∧
  posts (trace (send_discord_notification http_post item_name category
                  quantity previous
                  {| self := load_monitor strip watchlist_file f;
                     trace := tr |}).2) =
  posts tr ++ [(url, mkEmbed item_name category quantity previous)].
Proof.
  intros Hload.
  assert (webhook_line url = true) as Hvalid.
  { destruct f as [|lines fails]; [done|].
    destruct (load_discord_webhook_first strip) as (Hfile & _).
    rewrite Hfile in Hload.
    apply head_Some_elem_of, list_elem_of_filter in Hload as [Hvalid _].
    by destruct (webhook_line url). }
  unfold webhook_line, watchlist_line in Hvalid.
  apply andb_true_iff in Hvalid as [Hkeep Hprefix].
  apply andb_true_iff in Hkeep as [Hne Hhash].
  apply bool_decide_eq_true in Hne. apply negb_true_iff in Hhash.
  split_and!; [done..|].
  rewrite send_discord_notification_run. unfold load_monitor. simpl.
  rewrite Hload. simpl. by rewrite posts_app.
Qed.

Lemma loaded_webhook_used_witness :
  (load_discord_webhook str_strip ex_webhook_file).1 =
    Some "https://discord.com/api/webhooks/1/t"%string ∧
  String.prefix webhook_prefix "https://discord.com/api/webhooks/1/t" = true.
Proof.
  split; [reflexivity|].
  destruct (loaded_webhook_used str_strip ex_post ex_watchlist_file
              ex_webhook_file "https://discord.com/api/webhooks/1/t"
              "carrot" "gear" 5 0 [] eq_refl) as (Hprefix & _).
  exact Hprefix.
Defined.

(** ** More on the detector *)

Section DetectorOrder.

Context (lower : string → string).

Lemma alerts_trigger_events snap wl ps :
  alert_of <$> trigger_events lower snap wl ps =
  alert_for lower snap <$> filter (in_stock lower snap) wl.
Proof.
  revert ps. induction wl as [|w wl IH]; intros ps; [done|].
  simpl. rewrite fmap_app, IH, filter_cons. unfold trigger_event, in_stock.
  by destruct (decide (0 < current_quantity lower snap w)).
Qed.

Lemma trigger_events_app snap wl1 wl2 ps :
  trigger_events lower snap (wl1 ++ wl2) ps =
  trigger_events lower snap wl1 ps ++
  trigger_events lower snap wl2 (foldl (observe lower snap) ps wl1).
Proof.
  revert ps. induction wl1 as [|w wl1 IH]; intros ps; [done|].
  simpl. by rewrite IH, app_assoc.
Qed.

(** The events of a pass read the observation state only at the names of
    the watchlist entries still to come. *)
Lemma trigger_events_previous snap wl (ps : gmap string Z) (previous : string → Z) :
  NoDup (lower <$> wl) →
  (∀ w, w ∈ wl → default 0 (ps !! lower w) = previous w) →
  trigger_events lower snap wl ps =
  event_for lower snap previous <$> filter (in_stock lower snap) wl.
Proof.
  revert ps. induction wl as [|w wl IH]; intros ps Hnd Hprev; [done|].
  rewrite fmap_cons in Hnd. apply NoDup_cons in Hnd as [Hw Hnd].
  simpl. rewrite filter_cons, (IH (observe lower snap ps w) Hnd).
  - unfold trigger_event, in_stock, event_for.
    destruct (decide (0 < current_quantity lower snap w)); [|done].
    simpl. by rewrite (Hprev w) by left.
  - intros w' Hw'. unfold observe. rewrite lookup_insert_ne.
    + apply Hprev. by right.
    + intros Heq. apply Hw. rewrite Heq. by apply list_elem_of_fmap_2.
Qed.

Lemma lookup_foldl_observe_ne snap wl (ps : gmap string Z) k :
  k ∉ lower <$> wl → foldl (observe lower snap) ps wl !! k = ps !! k.
Proof.
  revert ps. induction wl as [|w wl IH]; intros ps Hk; [done|].
  rewrite fmap_cons in Hk. apply not_elem_of_cons in Hk as [Hne Hk].
  simpl. rewrite IH by done. unfold observe. by rewrite lookup_insert_ne.
Qed.

Lemma foldl_observe_idemp snap wl (ps : gmap string Z) :
  foldl (observe lower snap) (foldl (observe lower snap) ps wl) wl =
  foldl (observe lower snap) ps wl.
Proof.
  apply map_eq. intros k.
  destruct (decide (k ∈ lower <$> wl)) as [Hk|Hk].
  - apply list_elem_of_fmap in Hk as (w & -> & Hw).
    by rewrite !lookup_foldl_observe.
  - by rewrite lookup_foldl_observe_ne.
Qed.

End DetectorOrder.

(** X6: the alerts of a pass are those of the watchlist entries in stock,
    one for each entry and in watchlist order, an entry that is listed twice
    being alerted twice; with a webhook the requests follow the same order. *)
Theorem alerts_in_watchlist_order lower http_post snap s :
  ∃ new,
    trace (check_stock_changes lower http_post snap s).2 = trace s ++ new ∧
    alerts new =
      alert_for lower snap <$> filter (in_stock lower snap) (watchlist (self s)) ∧
    embed_item_name ∘ snd <$> posts new =
      match discord_webhook (self s) with
      | Some _ => filter (in_stock lower snap) (watchlist (self s))
      | None => []
      end.
Proof.
  rewrite check_stock_changes_run. simpl.
  destruct (cycle_trace_extends http_post (discord_webhook (self s)) (trace s)
              (trigger_events lower snap (watchlist (self s))
                              (previous_stock (self s))))
    as (new & -> & Halerts & Hposts).
  exists new. split_and!; [done|by rewrite Halerts, alerts_trigger_events|].
  rewrite Hposts. destruct (discord_webhook (self s)) as [url|]; [|done].
  rewrite <- list_fmap_compose.
  assert (embed_item_name <$> trigger_events lower snap (watchlist (self s))
                                (previous_stock (self s)) =
          filter (in_stock lower snap) (watchlist (self s))) as <-.
  { transitivity
      (fst ∘ fst <$> (alert_of <$> trigger_events lower snap
                        (watchlist (self s)) (previous_stock (self s)))).
    - by rewrite <- list_fmap_compose.
    - rewrite alerts_trigger_events, <- list_fmap_compose. apply list_fmap_id. }
  done.
Qed.

(** X7: when no two watchlist entries have the same lower-case name, every
    request of a pass quotes as previous quantity what the observation state
    held for the name before the pass, 0 for a name it did not hold. *)
Theorem request_quotes_stored_quantity lower http_post snap s url :
  NoDup (lower <$> watchlist (self s)) →
  discord_webhook (self s) = Some url →
  ∃ new,
    trace (check_stock_changes lower http_post snap s).2 = trace s ++ new ∧
    posts new =
      pair url <$>
        (event_for lower snap
           (λ w, default 0 (previous_stock (self s) !! lower w))
         <$> filter (in_stock lower snap) (watchlist (self s))).
Proof.
  intros Hnd Hurl. rewrite check_stock_changes_run. simpl.
  destruct (cycle_trace_extends http_post (discord_webhook (self s)) (trace s)
              (trigger_events lower snap (watchlist (self s))
                              (previous_stock (self s))))
    as (new & -> & _ & Hposts).
  exists new. split; [done|]. rewrite Hposts, Hurl.
  by rewrite (trigger_events_previous lower snap _ _
                (λ w, default 0 (previous_stock (self s) !! lower w)) Hnd).
Qed.

Lemma request_quotes_stored_quantity_witness :
  NoDup (str_lower <$> watchlist (self ex_state)) ∧
  ∃ new,
    trace (check_stock_changes str_lower ex_post ex_snapshot ex_state).2 =
      trace ex_state ++ new ∧
    posts new = [(ex_url, mkEmbed "carrot" "gear" 5 0);
                 (ex_url, mkEmbed "sunFlower" "seeds" 3 0)].
Proof.
  assert (NoDup (str_lower <$> watchlist (self ex_state))) as Hnd
    by compute_done.
  split; [exact Hnd|].
  destruct (request_quotes_stored_quantity str_lower ex_post ex_snapshot
              ex_state ex_url Hnd eq_refl) as (new & Htr & Hposts).
  exists new. split; [exact Htr|]. rewrite Hposts. by vm_compute.
Defined.

(** X8: over two passes in a row, the requests of the second quote the
    quantities the first one read, whatever was observed before the first. *)
Theorem second_pass_quotes_first lower http_post1 http_post2 snap1 snap2 s url :
  NoDup (lower <$> watchlist (self s)) →
  discord_webhook (self s) = Some url →
  let s1 := (check_stock_changes lower http_post1 snap1 s).2 in
  ∃ new,
    trace (check_stock_changes lower http_post2 snap2 s1).2 = trace s1 ++ new ∧
    posts new =
      pair url <$>
        (event_for lower snap2 (current_quantity lower snap1)
         <$> filter (in_stock lower snap2) (watchlist (self s))).
Proof.
  intros Hnd Hurl s1. unfold s1.
  rewrite (check_stock_changes_run lower http_post1 snap1 s).
  rewrite check_stock_changes_run. simpl.
  destruct (cycle_trace_extends http_post2 (discord_webhook (self s))
              (cycle_trace http_post1 (discord_webhook (self s)) (trace s)
                 (trigger_events lower snap1 (watchlist (self s))
                                 (previous_stock (self s))))
              (trigger_events lower snap2 (watchlist (self s))
                 (foldl (observe lower snap1) (previous_stock (self s))
                        (watchlist (self s)))))
    as (new & -> & _ & Hposts).
  exists new. split; [done|]. rewrite Hposts, Hurl.
  rewrite (trigger_events_previous lower snap2 _ _
             (current_quantity lower snap1) Hnd); [done|].
  intros w Hw. by rewrite lookup_foldl_observe.
Qed.

Lemma second_pass_quotes_first_witness :
  NoDup (str_lower <$> watchlist (self ex_state)) ∧
  ∃ new,
    posts new = [(ex_url, mkEmbed "carrot" "gear" 5 5);
                 (ex_url, mkEmbed "sunFlower" "seeds" 3 3)].
Proof.
  assert (NoDup (str_lower <$> watchlist (self ex_state))) as Hnd
    by compute_done.
  split; [exact Hnd|].
  destruct (second_pass_quotes_first str_lower ex_post ex_post ex_snapshot
              ex_snapshot ex_state ex_url Hnd eq_refl) as (new & _ & Hposts).
  exists new. rewrite Hposts. by vm_compute.
Defined.

(** X9: a watchlist entry that comes after another entry of the same
    lower-case name finds the quantity of this very pass stored: if it is in
    stock, its request quotes the current quantity as the previous one. *)
Theorem repeated_entry_quotes_current lower http_post snap s url wl1 w wl2 :
  watchlist (self s) = wl1 ++ w :: wl2 →
  (∃ w', w' ∈ wl1 ∧ lower w' = lower w) →
  in_stock lower snap w →
  discord_webhook (self s) = Some url →
  ∃ new,
    trace (check_stock_changes lower http_post snap s).2 = trace s ++ new ∧
    posts new =
      pair url <$>
        (trigger_events lower snap wl1 (previous_stock (self s)) ++
         event_for lower snap (current_quantity lower snap) w ::
         trigger_events lower snap wl2
           (foldl (observe lower snap) (previous_stock (self s)) (wl1 ++ [w]))).
Proof.
  intros Hwl (w' & Hw' & Hsame) Hstock Hurl.
  rewrite check_stock_changes_run. simpl.
  destruct (cycle_trace_extends http_post (discord_webhook (self s)) (trace s)
              (trigger_events lower snap (watchlist (self s))
                              (previous_stock (self s))))
    as (new & -> & _ & Hposts).
  exists new. split; [done|]. rewrite Hposts, Hurl, Hwl. f_equal.
  rewrite trigger_events_app. f_equal. simpl. rewrite foldl_snoc.
  f_equal. unfold trigger_event, event_for. rewrite decide_True by done.
  do 2 f_equal. rewrite <- Hsame, lookup_foldl_observe by done. simpl.
  unfold current_quantity. by rewrite Hsame.
Qed.

Lemma repeated_entry_quotes_current_witness :
  watchlist (self ex_state_twice) = ["carrot"; "Tulip"]%string
                                    ++ "CARROT"%string :: [] ∧
  in_stock str_lower ex_snapshot "CARROT" ∧
  ∃ new,
    posts new = [(ex_url, mkEmbed "carrot" "gear" 5 0);
                 (ex_url, mkEmbed "CARROT" "gear" 5 5)].
Proof.
  assert (in_stock str_lower ex_snapshot "CARROT") as Hstock by (by vm_compute).
  split_and!; [reflexivity|exact Hstock|].
  destruct (repeated_entry_quotes_current str_lower ex_post ex_snapshot
              ex_state_twice ex_url ["carrot"; "Tulip"]%string "CARROT" []
              eq_refl) as (new & _ & Hposts);
    [exists "carrot"%string; split; [left|reflexivity]|exact Hstock|reflexivity|].
  exists new. rewrite Hposts. by vm_compute.
Defined.

(** X10: a second pass on the same snapshot sends the same alerts again and
    leaves the observation state as the first pass left it. *)
Theorem repeated_pass_same lower http_post1 http_post2 snap s :
  let s1 := (check_stock_changes lower http_post1 snap s).2 in
  let s2 := (check_stock_changes lower http_post2 snap s1).2 in
  ∃ new1 new2,
    trace s1 = trace s ++ new1 ∧
    trace s2 = trace s1 ++ new2 ∧
    alerts new2 = alerts new1 ∧
    self s2 = self s1.
Proof.
  intros s1 s2. unfold s2, s1.
  rewrite (check_stock_changes_run lower http_post1 snap s).
  rewrite check_stock_changes_run. simpl.
  destruct (cycle_trace_extends http_post1 (discord_webhook (self s)) (trace s)
              (trigger_events lower snap (watchlist (self s))
                              (previous_stock (self s))))
    as (new1 & -> & Halerts1 & _).
  destruct (cycle_trace_extends http_post2 (discord_webhook (self s))
              (trace s ++ new1)
              (trigger_events lower snap (watchlist (self s))
                 (foldl (observe lower snap) (previous_stock (self s))
                        (watchlist (self s)))))
    as (new2 & -> & Halerts2 & _).
  exists new1, new2. split_and!; [done|done| |].
  - by rewrite Halerts1, Halerts2, !alerts_trigger_events.
  - unfold with_previous_stock. simpl. by rewrite foldl_observe_idemp.
Qed.

(** ** More on the fetcher, the display and the cycle *)

Section CycleFacts.

Context (lower : string → string).
Context {B : Type} `{!Body B}.
Context (http_get : string → get_outcome B).

Lemma fetches_app tr1 tr2 : fetches (tr1 ++ tr2) = fetches tr1 ++ fetches tr2.
Proof. apply omap_app. Qed.

Lemma alerts_app tr1 tr2 : alerts (tr1 ++ tr2) = alerts tr1 ++ alerts tr2.
Proof. apply omap_app. Qed.

(** One turn of the fetch loop makes one request and prints; it neither
    alerts nor posts. *)
Lemma fetch_category_effects all_data category s :
  ∃ new,
    fetch_category http_get all_data category s =
    (Return (dict_set category (fetched (http_get (fetch_url category)))
                      all_data),
     {| self := self s; trace := trace s ++ new |}) ∧
    fetches new = [fetch_url category] ∧ alerts new = [] ∧ posts new = [].
Proof.
  unfold fetch_category, try_except, session_get, response_json, fetched,
    mbind, M_bind, mret, M_ret, print, emit, raise, fetch_url. simpl.
  destruct (http_get (base_url +:+ "/" +:+ category))
    as [|status_code [items|]]; simpl;
    try destruct (decide (status_code = 200)); simpl;
    (eexists; rewrite <- !app_assoc; split; [reflexivity|done]).
Qed.

Lemma fetch_loop_effects cats all_data s :
  ∃ new,
    fetch_loop http_get cats all_data s =
    (Return (foldl (λ d c, dict_set c (fetched (http_get (fetch_url c))) d)
                   all_data cats),
     {| self := self s; trace := trace s ++ new |}) ∧
    fetches new = fetch_url <$> cats ∧ alerts new = [] ∧ posts new = [].
Proof.
  revert all_data s. induction cats as [|c cats IH]; intros all_data s; simpl.
  - exists []. by rewrite app_nil_r, state_eta.
  - destruct (fetch_category_effects all_data c s)
      as (new1 & Hrun1 & Hget1 & Hal1 & Hpo1).
    erewrite bind_return by exact Hrun1.
    destruct (IH (dict_set c (fetched (http_get (fetch_url c))) all_data)
                 {| self := self s; trace := trace s ++ new1 |})
      as (new2 & Hrun2 & Hget2 & Hal2 & Hpo2).
    exists (new1 ++ new2). rewrite Hrun2. simpl. rewrite app_assoc.
    split; [done|].
    by rewrite fetches_app, alerts_app, posts_app, Hget1, Hget2, Hal1, Hal2,
      Hpo1, Hpo2.
Qed.

Lemma get_all_items_data_effects s :
  ∃ new,
    get_all_items_data http_get s =
    (Return ((λ c, (c, fetched (http_get (fetch_url c)))) <$> categories),
     {| self := self s; trace := trace s ++ new |}) ∧
    fetches new = fetch_url <$> categories ∧ alerts new = [] ∧ posts new = [].
Proof.
  unfold get_all_items_data.
  destruct (fetch_loop_effects categories [] s) as (new & Hrun & Heff).
  rewrite foldl_dict_set_fresh in Hrun;
    [|apply NoDup_categories|by intros c _ ?%elem_of_nil].
  exists new. split; [exact Hrun|exact Heff].
Qed.

Lemma scan_app snap1 snap2 : scan (snap1 ++ snap2) = scan snap1 ++ scan snap2.
Proof. unfold scan. apply bind_app. Qed.

Lemma scan_cons category items snap :
  scan ((category, items) :: snap) = (pair category <$> items) ++ scan snap.
Proof. done. Qed.

Lemma scan_fetched_nil cats (items : string → list Item) :
  Forall (λ c, items c = []) cats →
  scan ((λ c, (c, items c)) <$> cats) = [].
Proof.
  induction 1 as [|c cats Hc _ IH]; [done|].
  rewrite fmap_cons.
  change (scan ([(c, items c)] ++ ((λ c, (c, items c)) <$> cats)) = []).
  rewrite scan_app, IH. unfold scan. simpl. by rewrite Hc.
Qed.

Lemma total_items_foldl wl acc snap :
  total_items (foldl (display_category lower wl) acc snap) =
  (total_items acc + length (scan snap))%nat.
Proof.
  revert acc. induction snap as [|[category items] snap IH]; intros acc.
  - simpl. lia.
  - cbn [foldl]. rewrite IH, scan_cons, length_app, length_fmap.
    assert (total_items (display_category lower wl acc (category, items)) =
            (total_items acc + length items)%nat) as ->; [|lia].
    unfold display_category. cbn [fst snd].
    destruct items as [|item items]; [simpl; lia|].
    generalize (item :: items). clear. intros items. revert acc.
    induction items as [|i items IH]; intros acc; [simpl; lia|].
    cbn [foldl length]. rewrite IH. simpl. lia.
Qed.

(** Categories without items leave no mark on the display. *)
Lemma display_listing_empty wl snap :
  Forall (λ entry, entry.2 = []) snap →
  display_listing lower wl snap =
  {| total_items := 0; watched_items_found := []; lines := [] |}.
Proof.
  unfold display_listing. generalize (mkListing 0 [] []). intros acc Hempty.
  induction Hempty as [|[category items] snap Hitems _ IH]; [done|].
  simpl in *. subst items. exact IH.
Qed.

Lemma trigger_events_none snap wl ps :
  (∀ w, w ∈ wl → current_quantity lower snap w = 0) →
  trigger_events lower snap wl ps = [].
Proof.
  revert ps. induction wl as [|w wl IH]; intros ps Hzero; [done|].
  simpl. rewrite IH by (intros w' Hw'; apply Hzero; by right).
  unfold trigger_event. rewrite (Hzero w) by left. done.
Qed.

End CycleFacts.

(** The snapshot of a cycle is what the fetcher returns. *)
Lemma get_all_items_data_run (http_get : string → get_outcome (list Item)) s :
  ∃ new,
    get_all_items_data http_get s =
    (Return (fetched_snapshot http_get),
     {| self := self s; trace := trace s ++ new |}) ∧
    fetches new = fetch_url <$> categories ∧ alerts new = [] ∧ posts new = [].
Proof. apply get_all_items_data_effects. Qed.

(** X11: a fetch requests each of the five categories once, in the fixed
    order, at the base address followed by the category; it retries nothing
    and neither alerts nor notifies. *)
Theorem fetch_requests_once {B} `{!Body B}
    (http_get : string → get_outcome B) s :
  ∃ new,
    trace (get_all_items_data http_get s).2 = trace s ++ new ∧
    fetches new = fetch_url <$> categories ∧
    length (fetches new) = 5%nat ∧
    alerts new = [] ∧ posts new = [].
Proof.
  destruct (get_all_items_data_effects http_get s)
    as (new & -> & Hget & Hal & Hpo).
  exists new. split_and!; [done|done|by rewrite Hget|done..].
Qed.

(** X12: the total the display reports is the number of records of the
    snapshot, whatever their quantities and whatever is watched. *)
Theorem total_items_counts_records lower wl snap :
  total_items (display_listing lower wl snap) = length (scan snap).
Proof. unfold display_listing. by rewrite total_items_foldl. Qed.

(** X14: when no category can be fetched, the cycle alerts for nothing and
    sends nothing, records the quantity 0 for every watched name, and the
    display counts no item and says that no watched item is available. *)
Theorem outage_cycle lower http_get http_post s :
  outage http_get →
  let s' := (run_cycle lower http_get http_post s).2 in
  ∃ new,
    trace s' = trace s ++ new ∧
    alerts new = [] ∧ posts new = [] ∧
    (∀ w, w ∈ watchlist (self s) →
          previous_stock (self s') !! lower w = Some 0) ∧
    Print (MsgTotalItems 0) ∈ new ∧
    last new = Some (Print MsgNoWatchedItems).
Proof.
  intros Hout s'.
  assert (Forall (λ c, fetched (http_get (fetch_url c)) = []) categories)
    as Hnil.
  { eapply Forall_impl; [exact Hout|]. intros c Hc. by apply fetched_failed. }
  assert (scan (fetched_snapshot http_get) = []) as Hscan
    by apply (scan_fetched_nil categories
                (λ c, fetched (http_get (fetch_url c))) Hnil).
  assert (Forall (λ entry : string * list Item, entry.2 = [])
            (fetched_snapshot http_get)) as Hempty
    by (unfold fetched_snapshot; by apply Forall_fmap).
  assert (∀ w, current_quantity lower (fetched_snapshot http_get) w = 0)
    as Hzero.
  { intros w. apply current_quantity_absent. rewrite Hscan.
    by intros e ?%elem_of_nil. }
  destruct (get_all_items_data_run http_get s) as (new & Hfetch & _ & Hal & Hpo).
  unfold s', run_cycle. erewrite bind_return by exact Hfetch.
  erewrite bind_return by apply check_stock_changes_run.
  rewrite display_all_items_run. simpl.
  rewrite trigger_events_none by (intros; apply Hzero). simpl.
  rewrite (display_listing_empty lower _ _ Hempty). simpl.
  eexists. rewrite <- !app_assoc. split; [reflexivity|]. split_and!.
  - by rewrite alerts_app, Hal.
  - by rewrite posts_app, Hpo.
  - intros w Hw. rewrite lookup_foldl_observe by done. by rewrite Hzero.
  - rewrite !elem_of_app. right. left.
  - by rewrite !last_app.
Qed.

Lemma outage_cycle_witness :
  outage ex_get_down ∧
  ∃ new,
    trace (run_cycle str_lower ex_get_down ex_post ex_state).2 =
      trace ex_state ++ new ∧
    alerts new = [] ∧ posts new = [].
Proof.
  assert (outage ex_get_down) as Hout by (repeat constructor).
  split; [exact Hout|].
  destruct (outage_cycle str_lower ex_get_down ex_post ex_state Hout)
    as (new & Htr & Hal & Hpo & _).
  exists new. split; [exact Htr|]. split; [exact Hal|exact Hpo].
Defined.

(** X15: a watched name that a pass alerts for is listed in the aggregate
    line of the display of the same snapshot, with the category the alert
    names; the name must not be one that lower-cases like the empty
    string. *)
Theorem alerted_item_is_listed lower snap wl w :
  w ∈ wl →
  in_stock lower snap w →
  lower w ≠ lower EmptyString →
  ∃ e, e ∈ scan snap ∧
       item_key lower e.2 = lower w ∧
       e.1 = current_category lower snap w ∧
       item_quantity e.2 = current_quantity lower snap w ∧
       found_entry e ∈ watched_items_found (display_listing lower wl snap).
Proof.
  intros Hw Hstock Hname. unfold in_stock in Hstock.
  unfold current_quantity, current_category, current_data in *.
  rewrite lookup_build_current_stock in *. unfold last_match, matching in *.
  destruct (last _) as [e|] eqn:Hlast; simpl in *; [|lia].
  assert (e ∈ filter (λ e, item_key lower e.2 = lower w) (scan snap)) as He.
  { apply last_Some in Hlast as [l' ->]. apply elem_of_app. right. left. }
  apply list_elem_of_filter in He as [Hkey He].
  exists e. split_and!; [done..|].
  rewrite watched_items_found_scan. apply list_elem_of_fmap_2.
  apply list_elem_of_filter. split; [|done].
  unfold watched_entry, is_watched, display_name. apply bool_decide_pack.
  unfold item_key in Hkey. destruct (name e.2) as [n|]; simpl in *.
  - rewrite Hkey. by apply list_elem_of_fmap_2.
  - by destruct Hname.
Qed.

Lemma alerted_item_is_listed_witness :
  "sunFlower"%string ∈ ex_watchlist ∧
  in_stock str_lower ex_snapshot "sunFlower" ∧
  ∃ e, e ∈ scan ex_snapshot ∧
       e.1 = current_category str_lower ex_snapshot "sunFlower" ∧
       found_entry e ∈
         watched_items_found
           (display_listing str_lower ex_watchlist ex_snapshot).
Proof.
  assert ("sunFlower"%string ∈ ex_watchlist) as Hw by (right; right; left).
  assert (in_stock str_lower ex_snapshot "sunFlower") as Hstock
    by (by vm_compute).
  split; [exact Hw|]. split; [exact Hstock|].
  destruct (alerted_item_is_listed str_lower ex_snapshot ex_watchlist
              "sunFlower" Hw Hstock) as (e & He & _ & Hc & _ & Hfound);
    [by vm_compute|].
  exists e. split; [exact He|]. split; [exact Hc|exact Hfound].
Defined.

(** ** The keyboard listener *)

Section ListenerFacts.

Lemma keyboard_input_handler_cons k keys sh :
  keyboard_input_handler (k :: keys) sh =
  keyboard_input_handler keys (press sh k).
Proof. done. Qed.

Lemma keyboard_input_handler_app keys1 keys2 sh :
  keyboard_input_handler (keys1 ++ keys2) sh =
  keyboard_input_handler keys2 (keyboard_input_handler keys1 sh).
Proof. apply foldl_app. Qed.

(** A listener whose loop has ended handles nothing more. *)
Lemma press_ended sh k : listening sh = false → press sh k = sh.
Proof.
  intros Hl. unfold press. rewrite Hl. simpl.
  destruct sh; simpl in *; by subst.
Qed.

Lemma keyboard_input_handler_ended keys sh :
  listening sh = false → keyboard_input_handler keys sh = sh.
Proof.
  induction keys as [|k keys IH]; [done|]. intros Hl.
  by rewrite keyboard_input_handler_cons, press_ended, IH.
Qed.

Lemma handle_key_frame t b m :
  auto_refresh_interval (handle_key t b m).1.1 = auto_refresh_interval m ∧
  (running (handle_key t b m).1.1 = true → running m = true).
Proof.
  unfold handle_key. destruct (key_of b) as [key|]; [|done].
  repeat case_decide; simpl; [|done..]. by destruct (auto_refresh m).
Qed.

Lemma press_frame sh k :
  auto_refresh_interval (mode (press sh k)) = auto_refresh_interval (mode sh) ∧
  (running (mode (press sh k)) = true → running (mode sh) = true) ∧
  (listening (press sh k) = true → listening sh = true) ∧
  shown sh `prefix_of` shown (press sh k).
Proof.
  unfold press. destruct (listening sh && running (mode sh)) eqn:Hgo; simpl.
  - apply andb_true_iff in Hgo as [Hl Hr].
    destruct (handle_key_frame k.1 k.2 (mode sh)) as [Hint Hrun].
    split_and!; [done..|by apply prefix_app_r].
  - done.
Qed.

(** A key other than Q leaves the running flag as it is. *)
Lemma press_running sh k :
  key_of k.2 ≠ Some "Q"%char →
  running (mode (press sh k)) = running (mode sh).
Proof.
  intros Hq. unfold press.
  destruct (listening sh && running (mode sh)); [|done]. simpl.
  unfold handle_key. destruct (key_of k.2) as [key|]; [|done].
  repeat case_decide; simpl; try done; [|by subst].
  by destruct (auto_refresh (mode sh)).
Qed.

Lemma keyboard_input_handler_running keys sh :
  Forall (λ k, key_of k.2 ≠ Some "Q"%char) keys →
  running (mode (keyboard_input_handler keys sh)) = running (mode sh).
Proof.
  intros Hkeys. revert sh. induction Hkeys as [|k keys Hk _ IH]; intros sh.
  - done.
  - by rewrite keyboard_input_handler_cons, IH, press_running.
Qed.

(** While the keys decode, the loop of the listener only ends by a quit. *)
Lemma press_alive sh k :
  is_Some (key_of k.2) →
  listening sh = true ∨ running (mode sh) = false →
  listening (press sh k) = true ∨ running (mode (press sh k)) = false.
Proof.
  intros [key Hkey] Halive. unfold press.
  destruct (listening sh && running (mode sh)) eqn:Hgo; simpl.
  - unfold handle_key. rewrite Hkey.
    repeat case_decide; simpl; try (by left); [|by right].
    destruct (auto_refresh (mode sh)); by left.
  - right. apply andb_false_iff in Hgo as [Hl|Hr]; [|done].
    destruct Halive as [Hl'|Hr]; [congruence|done].
Qed.

Lemma keyboard_input_handler_alive keys sh :
  Forall (λ k, is_Some (key_of k.2)) keys →
  listening sh = true ∨ running (mode sh) = false →
  listening (keyboard_input_handler keys sh) = true ∨
  running (mode (keyboard_input_handler keys sh)) = false.
Proof.
  intros Hkeys. revert sh. induction Hkeys as [|k keys Hk _ IH]; intros sh Hsh.
  - done.
  - rewrite keyboard_input_handler_cons. by apply IH, press_alive.
Qed.

Lemma keyboard_input_handler_frame keys sh :
  auto_refresh_interval (mode (keyboard_input_handler keys sh)) =
    auto_refresh_interval (mode sh) ∧
  (running (mode (keyboard_input_handler keys sh)) = true →
   running (mode sh) = true) ∧
  (listening (keyboard_input_handler keys sh) = true → listening sh = true) ∧
  shown sh `prefix_of` shown (keyboard_input_handler keys sh).
Proof.
  revert sh. induction keys as [|k keys IH]; intros sh; [done|].
  rewrite keyboard_input_handler_cons.
  destruct (IH (press sh k)) as (Hint & Hrun & Hlis & Hshown).
  destruct (press_frame sh k) as (Hint' & Hrun' & Hlis' & Hshown').
  split_and!; [congruence|auto|auto|by etrans].
Qed.

Lemma press_quit sh t b :
  key_of b = Some "Q"%char →
  listening sh = true ∨ running (mode sh) = false →
  running (mode (press sh (t, b))) = false.
Proof.
  intros Hq Halive. unfold press.
  destruct (listening sh && running (mode sh)) eqn:Hgo; simpl.
  - unfold handle_key. rewrite Hq. repeat case_decide; done.
  - apply andb_false_iff in Hgo as [Hl|Hr]; [|done].
    destruct Halive as [Hl'|Hr]; [congruence|done].
Qed.

(** Keys other than M and R leave the mode and the timer as they are. *)
Lemma press_auto_refresh sh k :
  key_of k.2 ≠ Some "M"%char → key_of k.2 ≠ Some "R"%char →
  auto_refresh (mode (press sh k)) = auto_refresh (mode sh) ∧
  last_refresh_time (mode (press sh k)) = last_refresh_time (mode sh).
Proof.
  intros Hm Hr. unfold press.
  destruct (listening sh && running (mode sh)); [|done]. simpl.
  unfold handle_key. destruct (key_of k.2) as [key|]; [|done].
  repeat case_decide; simpl; try done; by subst.
Qed.

End ListenerFacts.

(** X16: the listener never changes the refresh interval, never sets the
    running flag back to true and never resumes once its loop has ended;
    what it printed stays, and keys other than M and R change neither the
    refresh mode nor the refresh timer. *)
Theorem listener_frame keys sh :
  auto_refresh_interval (mode (keyboard_input_handler keys sh)) =
    auto_refresh_interval (mode sh) ∧
  (running (mode (keyboard_input_handler keys sh)) = true →
   running (mode sh) = true) ∧
  (listening (keyboard_input_handler keys sh) = true → listening sh = true) ∧
  shown sh `prefix_of` shown (keyboard_input_handler keys sh) ∧
  (Forall (λ k, key_of k.2 ≠ Some "M"%char ∧ key_of k.2 ≠ Some "R"%char) keys →
   auto_refresh (mode (keyboard_input_handler keys sh)) =
     auto_refresh (mode sh) ∧
   last_refresh_time (mode (keyboard_input_handler keys sh)) =
     last_refresh_time (mode sh)).
Proof.
  destruct (keyboard_input_handler_frame keys sh) as (Hint & Hrun & Hlis & Hsh).
  split_and!; [done..|].
  intros Hkeys. clear Hint Hrun Hlis Hsh. revert sh.
  induction Hkeys as [|k keys [Hm Hr] _ IH]; intros sh; [done|].
  rewrite keyboard_input_handler_cons.
  destruct (IH (press sh k)) as [-> ->]. by apply press_auto_refresh.
Qed.

(** X17: a key byte of 128 or more does not decode: the listener reports
    an error and its loop ends with the run mode as it was, so the running
    flag stays true and no later key, Q included, is handled. *)
Theorem undecodable_key_ends_listener keys1 t b keys2 sh :
  (128 ≤ nat_of_ascii b)%nat →
  listening (keyboard_input_handler keys1 sh) = true →
  running (mode (keyboard_input_handler keys1 sh)) = true →
  keyboard_input_handler (keys1 ++ (t, b) :: keys2) sh =
  {| mode := mode (keyboard_input_handler keys1 sh);
     listening := false;
     shown := shown (keyboard_input_handler keys1 sh) ++ [MsgKeyboardError] |}.
Proof.
  intros Hb Hlis Hrun.
  rewrite keyboard_input_handler_app, keyboard_input_handler_cons.
  rewrite keyboard_input_handler_ended.
  - unfold press. rewrite Hlis, Hrun. simpl. unfold handle_key, key_of, decode_key.
    by rewrite (proj2 (Nat.ltb_ge _ _) Hb).
  - unfold press. rewrite Hlis, Hrun. simpl. unfold handle_key, key_of, decode_key.
    by rewrite (proj2 (Nat.ltb_ge _ _) Hb).
Qed.

Lemma undecodable_key_ends_listener_witness :
  (128 ≤ nat_of_ascii (ascii_of_nat 224))%nat ∧
  running (mode (keyboard_input_handler
                   ([(100, "m"%char)] ++
                    (200, ascii_of_nat 224) :: [(500, "q"%char)])
                   (shared_init 0))) = true.
Proof.
  assert (128 ≤ nat_of_ascii (ascii_of_nat 224))%nat as Hb by (vm_compute; lia).
  split; [exact Hb|].
  rewrite (undecodable_key_ends_listener [(100, "m"%char)] 200
             (ascii_of_nat 224) [(500, "q"%char)] (shared_init 0) Hb);
    reflexivity.
Defined.

(** X18: the key q, in either case, handled by a listener that is going:
    the running flag becomes false and nothing else of the run mode changes;
    the loop of the listener ends and later keys are not handled. *)
Theorem quit_key_stops keys1 t b keys2 sh :
  b = "q"%char ∨ b = "Q"%char →
  listening (keyboard_input_handler keys1 sh) = true →
  running (mode (keyboard_input_handler keys1 sh)) = true →
  keyboard_input_handler (keys1 ++ (t, b) :: keys2) sh =
  {| mode := mode (set_running_false (keyboard_input_handler keys1 sh));
     listening := false;
     shown := shown (keyboard_input_handler keys1 sh) ++ [MsgQuitting] |}.
Proof.
  intros Hb Hlis Hrun.
  assert (press (keyboard_input_handler keys1 sh) (t, b) =
          {| mode := mode (set_running_false (keyboard_input_handler keys1 sh));
             listening := false;
             shown := shown (keyboard_input_handler keys1 sh) ++ [MsgQuitting] |})
    as Hpress.
  { unfold press. rewrite Hlis, Hrun. simpl. by destruct Hb as [->| ->]. }
  rewrite keyboard_input_handler_app, keyboard_input_handler_cons, Hpress.
  by apply keyboard_input_handler_ended.
Qed.

Lemma quit_key_stops_witness :
  ("q"%char = "q"%char ∨ "q"%char = "Q"%char) ∧
  running (mode (keyboard_input_handler
                   ([(100, "m"%char)] ++ (500, "q"%char) :: [(600, "m"%char)])
                   (shared_init 0))) = false.
Proof.
  assert ("q"%char = "q"%char ∨ "q"%char = "Q"%char) as Hb by (by left).
  split; [exact Hb|].
  rewrite (quit_key_stops [(100, "m"%char)] 500 "q" [(600, "m"%char)]
             (shared_init 0) Hb); reflexivity.
Defined.

(** X19: as long as the keys decode and none is Q, the listener keeps
    going, the running flag stays true, and auto-refresh ends up switched
    when M was pressed an odd number of times and as it was otherwise. *)
Theorem toggle_parity keys sh :
  Forall (λ k, is_Some (key_of k.2) ∧ key_of k.2 ≠ Some "Q"%char) keys →
  listening sh = true →
  running (mode sh) = true →
  auto_refresh (mode (keyboard_input_handler keys sh)) =
    xorb (auto_refresh (mode sh)) (Nat.odd (presses "M" keys)) ∧
  running (mode (keyboard_input_handler keys sh)) = true ∧
  listening (keyboard_input_handler keys sh) = true.
Proof.
  intros Hkeys. revert sh.
  induction Hkeys as [|k keys [[key Hkey] Hq] _ IH]; intros sh Hlis Hrun.
  - simpl. by rewrite xorb_false_r.
  - rewrite keyboard_input_handler_cons.
    assert (listening (press sh k) = true ∧
            running (mode (press sh k)) = true ∧
            auto_refresh (mode (press sh k)) =
              if decide (key_of k.2 = Some "M"%char)
              then negb (auto_refresh (mode sh))
              else auto_refresh (mode sh)) as (Hl & Hr & Ha).
    { unfold press. rewrite Hlis, Hrun. simpl. unfold handle_key.
      rewrite Hkey in *.
      destruct (decide (key = "M"%char)) as [->|Hm].
      - rewrite decide_True by done. simpl.
        by destruct (auto_refresh (mode sh)).
      - rewrite (decide_False (P := Some key = Some "M"%char)) by congruence.
        destruct (decide (key = "R"%char)); [done|].
        destruct (decide (key = "Q"%char)); [by subst|done]. }
    destruct (IH (press sh k) Hl Hr) as (-> & -> & ->). split_and!; [|done..].
    rewrite Ha. unfold presses. rewrite filter_cons.
    destruct (decide (key_of k.2 = Some "M"%char)) as [Hm|Hm].
    + cbn [length]. rewrite Nat.odd_succ, <- Nat.negb_odd.
      by destruct (auto_refresh (mode sh)), (Nat.odd _).
    + done.
Qed.

Lemma toggle_parity_witness :
  Forall (λ k : Z * ascii, is_Some (key_of k.2) ∧ key_of k.2 ≠ Some "Q"%char)
         [(100, "m"%char); (200, "x"%char); (300, "M"%char); (400, "m"%char)] ∧
  auto_refresh (mode (keyboard_input_handler
                        [(100, "m"%char); (200, "x"%char); (300, "M"%char);
                         (400, "m"%char)]
                        (shared_init 0))) = true.
Proof.
  assert (Forall (λ k : Z * ascii,
                    is_Some (key_of k.2) ∧ key_of k.2 ≠ Some "Q"%char)
            [(100, "m"%char); (200, "x"%char); (300, "M"%char);
             (400, "m"%char)]) as Hkeys
    by (repeat (apply List.Forall_cons;
                  [split; [vm_compute; by eexists|by vm_compute]|]);
        apply List.Forall_nil).
  split; [exact Hkeys|].
  destruct (toggle_parity _ (shared_init 0) Hkeys eq_refl eq_refl) as (-> & _).
  reflexivity.
Defined.

(** ** The wait and the loop of [run] *)

Section RunFacts.

Lemma running_after_no_quit keys sh t :
  Forall (λ k, key_of k.2 ≠ Some "Q"%char) keys →
  running_after keys sh t = running (mode sh).
Proof.
  intros Hkeys. unfold running_after, keys_until.
  apply keyboard_input_handler_running.
  apply Forall_forall. intros k Hk. apply list_elem_of_filter in Hk as [_ Hk].
  by apply (proj1 (Forall_forall _ _) Hkeys).
Qed.

(** From the time the listener handles a Q on, the flag reads false. *)
Lemma running_after_quit keys1 q b keys2 sh t :
  Forall (λ k, k.1 ≤ q ∧ is_Some (key_of k.2)) keys1 →
  key_of b = Some "Q"%char →
  listening sh = true →
  q ≤ t →
  running_after (keys1 ++ (q, b) :: keys2) sh t = false.
Proof.
  intros Hkeys Hb Hlis Ht. unfold running_after, keys_until.
  rewrite filter_app, filter_cons, decide_True by done.
  assert (filter (λ k : Z * ascii, k.1 ≤ t) keys1 = keys1) as ->.
  { clear -Hkeys Ht. induction Hkeys as [|k keys [Hk _] _ IH]; [done|].
    rewrite filter_cons, decide_True by lia. by rewrite IH. }
  rewrite keyboard_input_handler_app, keyboard_input_handler_cons.
  destruct (running (mode (keyboard_input_handler _ (press _ _)))) eqn:Hrun;
    [|done].
  apply keyboard_input_handler_frame in Hrun.
  rewrite press_quit in Hrun; [done|done|].
  apply keyboard_input_handler_alive; [|by left].
  eapply Forall_impl; [exact Hkeys|]. by intros k [_ Hk].
Qed.

Lemma wait_loop_full (flag : Z → bool) remaining w :
  (∀ t, flag t = true) →
  wait_loop flag remaining w =
  {| now := now w + 1000 * Z.of_nat remaining;
     sleeps := sleeps w ++ replicate remaining 1000 |}.
Proof.
  intros Hflag.
  destruct (wait_loop_run flag remaining w)
    as (k & Hk & Hnow & Hsleeps & _ & Hend).
  destruct Hend as [->|Hend]; [|by rewrite Hflag in Hend].
  destruct (wait_loop flag remaining w) as [t sl]. simpl in *. by subst.
Qed.

Lemma foldr_add_replicate (k : nat) (d : Z) :
  foldr Z.add 0 (replicate k d) = d * Z.of_nat k.
Proof. induction k as [|k IH]; simpl; [lia|]. rewrite IH. lia. Qed.

End RunFacts.

(** X20: keys other than Q do not shorten the countdown: while the running
    flag is true and no Q is pressed, the wait sleeps all of its seconds,
    whatever else is pressed, a switch of the refresh mode included. *)
Theorem only_quit_shortens_wait keys sh remaining start :
  Forall (λ k, key_of k.2 ≠ Some "Q"%char) keys →
  running (mode sh) = true →
  auto_refresh_wait (running_after keys sh) remaining start =
  {| now := start + 1000 * Z.max 0 remaining;
     sleeps := replicate (Z.to_nat remaining) 1000 |}.
Proof.
  intros Hkeys Hrun. unfold auto_refresh_wait.
  rewrite wait_loop_full
    by (intros t; by rewrite running_after_no_quit). simpl.
  f_equal. lia.
Qed.

Lemma only_quit_shortens_wait_witness :
  Forall (λ k : Z * ascii, key_of k.2 ≠ Some "Q"%char) [(1500, "m"%char)] ∧
  auto_refresh_wait (running_after [(1500, "m"%char)] (shared_init 0)) 3 0 =
  {| now := 3000; sleeps := [1000; 1000; 1000] |}.
Proof.
  assert (Forall (λ k : Z * ascii, key_of k.2 ≠ Some "Q"%char)
            [(1500, "m"%char)]) as Hkeys
    by (apply List.Forall_cons; [by vm_compute|apply List.Forall_nil]).
  split; [exact Hkeys|].
  by rewrite (only_quit_shortens_wait _ (shared_init 0) 3 0 Hkeys eq_refl).
Defined.

(** X21: a Q pressed at time [quit], with the listener still going, ends
    the countdown less than a second after the later of its start and the
    press, and the flag then reads false; the keys before it must decode,
    or the listener would have ended. *)
Theorem quit_key_ends_wait keys1 quit b keys2 sh remaining start :
  Forall (λ k, k.1 ≤ quit ∧ is_Some (key_of k.2)) keys1 →
  b = "q"%char ∨ b = "Q"%char →
  listening sh = true →
  let flag := running_after (keys1 ++ (quit, b) :: keys2) sh in
  let w := auto_refresh_wait flag remaining start in
  now w < Z.max start quit + 1000 ∧
  (quit ≤ start + 1000 * remaining → flag (now w) = false).
Proof.
  intros Hkeys Hb Hlis flag w.
  assert (key_of b = Some "Q"%char) as Hq by (by destruct Hb as [->| ->]).
  assert (∀ t, quit ≤ t → flag t = false) as Hquit
    by (intros t Ht; by apply running_after_quit).
  unfold w, auto_refresh_wait.
  destruct (wait_loop_run flag (Z.to_nat remaining)
              {| now := start; sleeps := [] |})
    as (k & Hk & Hnow & _ & Hchecks & Hend).
  simpl in *. rewrite Hnow. split.
  - destruct k as [|k]; [lia|].
    assert (flag (start + 1000 * Z.of_nat k) = true) as Hlast
      by (apply Hchecks; lia).
    destruct (decide (quit ≤ start + 1000 * Z.of_nat k)) as [Hle|Hgt]; [|lia].
    by rewrite Hquit in Hlast.
  - intros Hin. destruct Hend as [->|Hend]; [|done]. apply Hquit. lia.
Qed.

Lemma quit_key_ends_wait_witness :
  Forall (λ k : Z * ascii, k.1 ≤ 2500 ∧ is_Some (key_of k.2))
         [(1200, "x"%char)] ∧
  now (auto_refresh_wait
         (running_after ([(1200, "x"%char)] ++ (2500, "Q"%char) :: [])
                        (shared_init 0)) 45 0) < Z.max 0 2500 + 1000.
Proof.
  assert (Forall (λ k : Z * ascii, k.1 ≤ 2500 ∧ is_Some (key_of k.2))
            [(1200, "x"%char)]) as Hkeys
    by (apply List.Forall_cons;
        [split; [simpl; lia|vm_compute; by eexists]|apply List.Forall_nil]).
  split; [exact Hkeys|].
  destruct (quit_key_ends_wait [(1200, "x"%char)] 2500 "Q" [] (shared_init 0)
              45 0 Hkeys) as [Hlt _]; [by right|reflexivity|exact Hlt].
Defined.

(** X22: when the interval has not yet elapsed on entering the auto-refresh
    branch, the countdown announced is at least one second and at most the
    interval, and the branch sleeps at most that many times one second. *)
Theorem countdown_bounds keys clock sh :
  0 ≤ clock - last_refresh_time (mode sh)
    < 1000 * auto_refresh_interval (mode sh) →
  ∃ remaining (k : nat),
    1 ≤ remaining ≤ auto_refresh_interval (mode sh) ∧
    (k ≤ Z.to_nat remaining)%nat ∧
    (auto_refresh_phase keys clock sh).2 =
      Said (MsgNextAutoRefresh remaining) :: replicate k (Slept 1000).
Proof.
  intros [Hlo Hhi]. unfold auto_refresh_phase.
  rewrite decide_False by lia. simpl.
  set (since := clock - last_refresh_time (mode sh)) in *.
  assert (0 ≤ since ÷ 1000) by (apply Z.quot_pos; lia).
  assert (since ÷ 1000 < auto_refresh_interval (mode sh))
    by (apply Z.quot_lt_upper_bound; lia).
  unfold auto_refresh_wait.
  destruct (wait_loop_run (running_after keys sh)
              (Z.to_nat (auto_refresh_interval (mode sh) - since ÷ 1000))
              {| now := clock; sleeps := [] |})
    as (k & Hk & _ & Hsleeps & _).
  exists (auto_refresh_interval (mode sh) - since ÷ 1000), k.
  split_and!; [lia|lia|done|].
  rewrite Hsleeps. simpl. by rewrite fmap_replicate.
Qed.

Lemma countdown_bounds_witness :
  0 ≤ 57500 - last_refresh_time (mode (shared_init 0))
    < 1000 * auto_refresh_interval (mode (shared_init 0)) ∧
  ∃ remaining (k : nat),
    1 ≤ remaining ≤ 60 ∧
    (k ≤ Z.to_nat remaining)%nat ∧
    (auto_refresh_phase [(58200, "m"%char)] 57500 (shared_init 0)).2 =
      Said (MsgNextAutoRefresh remaining) :: replicate k (Slept 1000).
Proof.
  assert (0 ≤ 57500 - last_refresh_time (mode (shared_init 0))
            < 1000 * auto_refresh_interval (mode (shared_init 0))) as Hin
    by (simpl; lia).
  split; [exact Hin|].
  exact (countdown_bounds [(58200, "m"%char)] 57500 (shared_init 0) Hin).
Defined.

(** X23: the countdown does not reset the refresh timer.  After a countdown
    that ran its full length with no key pressed, the branch finds the
    interval elapsed whenever it is entered next: it resets the timer and
    goes on without sleeping, so the cycle after a countdown is followed at
    once by another. *)
Theorem full_wait_then_no_wait clock sh :
  running (mode sh) = true →
  0 ≤ clock - last_refresh_time (mode sh)
    < 1000 * auto_refresh_interval (mode sh) →
  ∃ remaining,
    1 ≤ remaining ∧
    auto_refresh_phase [] clock sh =
      (sh, Said (MsgNextAutoRefresh remaining)
           :: replicate (Z.to_nat remaining) (Slept 1000)) ∧
    ∀ keys clock', clock + 1000 * remaining ≤ clock' →
      auto_refresh_phase keys clock' sh =
      (set_last_refresh_time clock' sh,
       [Said (MsgAutoRefreshing (auto_refresh_interval (mode sh)))]).
Proof.
  intros Hrun [Hlo Hhi].
  set (since := clock - last_refresh_time (mode sh)) in *.
  assert (0 ≤ since ÷ 1000) by (apply Z.quot_pos; lia).
  assert (since ÷ 1000 < auto_refresh_interval (mode sh))
    by (apply Z.quot_lt_upper_bound; lia).
  assert (1000 * (since ÷ 1000) ≤ since) by (apply Z.mul_quot_le; lia).
  exists (auto_refresh_interval (mode sh) - since ÷ 1000). split_and!.
  - lia.
  - unfold auto_refresh_phase. rewrite decide_False by (fold since; lia).
    simpl. fold since. unfold auto_refresh_wait.
    rewrite wait_loop_full by (intros t; exact Hrun). simpl.
    by rewrite fmap_replicate.
  - intros keys clock' Hlater. unfold auto_refresh_phase.
    rewrite decide_True; [done|]. unfold since in *. lia.
Qed.

Lemma full_wait_then_no_wait_witness :
  running (mode (shared_init 0)) = true ∧
  auto_refresh_phase [] 60500 (shared_init 0) =
    (set_last_refresh_time 60500 (shared_init 0), [Said (MsgAutoRefreshing 60)]).
Proof.
  split; [reflexivity|].
  destruct (full_wait_then_no_wait 57500 (shared_init 0) eq_refl)
    as (remaining & _ & Hphase & Hnext); [simpl; lia|].
  assert (remaining = 3) as -> by (vm_compute in Hphase; congruence).
  apply Hnext. lia.
Defined.

Section LoopFacts.

Context (strip lower : string → string).

Lemma run_cycle_run http_get http_post s :
  run_cycle lower http_get http_post s =
  (Return tt,
   (display_all_items lower (fetched_snapshot http_get)
      (check_stock_changes lower http_post (fetched_snapshot http_get)
         (get_all_items_data http_get s).2).2).2).
Proof.
  destruct (get_all_items_data_run http_get s) as (new & Hfetch & _).
  unfold run_cycle. erewrite bind_return by exact Hfetch.
  erewrite bind_return by apply check_stock_changes_run.
  rewrite Hfetch. simpl. rewrite (check_stock_changes_run lower http_post).
  simpl.
  match goal with
  | |- display_all_items lower ?sn ?x = _ =>
      pose proof (display_all_items_run lower sn x) as Hd
  end.
  simpl in Hd. by rewrite Hd.
Qed.

Lemma reachable_run_cycle http_get http_post s :
  reachable lower s →
  reachable lower (run_cycle lower http_get http_post s).2 ∧
  watchlist (self (run_cycle lower http_get http_post s).2) =
    watchlist (self s) ∧
  discord_webhook (self (run_cycle lower http_get http_post s).2) =
    discord_webhook (self s).
Proof.
  intros Hreach. rewrite run_cycle_run. simpl. split_and!.
  - by apply reachable_display, reachable_check, reachable_fetch.
  - rewrite self_display_all_items, check_stock_changes_run. simpl.
    by rewrite self_get_all_items_data.
  - rewrite self_display_all_items, check_stock_changes_run. simpl.
    by rewrite self_get_all_items_data.
Qed.

Lemma fetches_cycle_trace http_post wh tr events :
  fetches (cycle_trace http_post wh tr events) = fetches tr.
Proof.
  revert tr. induction events as [|e events IH]; intros tr; [done|].
  simpl. rewrite IH, fetches_app. unfold event_effects.
  destruct wh as [url|]; simpl; by rewrite app_nil_r.
Qed.

Lemma fetches_print ms : fetches (Print <$> ms) = [].
Proof. induction ms as [|m ms IH]; [done|]. exact IH. Qed.

Lemma fetches_run_cycle http_get http_post s :
  fetches (trace (run_cycle lower http_get http_post s).2) =
  fetches (trace s) ++ (fetch_url <$> categories).
Proof.
  rewrite run_cycle_run. simpl.
  destruct (get_all_items_data_run http_get s) as (new & -> & Hget & _).
  rewrite display_all_items_run, check_stock_changes_run. simpl.
  rewrite !fetches_app, fetches_cycle_trace, fetches_app, fetches_print, Hget.
  simpl. by rewrite !app_nil_r.
Qed.

Lemma monitor_run_iteration turn r :
  monitor (run_iteration strip lower turn r).1 =
  (run_cycle lower (turn_get turn) (turn_post turn) (monitor r)).2.
Proof. unfold run_iteration. by destruct (auto_refresh _). Qed.

Lemma auto_refresh_phase_frame keys clock sh :
  auto_refresh_interval (mode (auto_refresh_phase keys clock sh).1) =
    auto_refresh_interval (mode sh) ∧
  (running (mode (auto_refresh_phase keys clock sh).1) = true →
   running (mode sh) = true).
Proof.
  unfold auto_refresh_phase. case_decide; simpl; [done|].
  destruct (keyboard_input_handler_frame
              (keys_until
                 (now (auto_refresh_wait (running_after keys sh)
                         (auto_refresh_interval (mode sh) -
                          (clock - last_refresh_time (mode sh)) ÷ 1000)
                         clock)) keys) sh) as (Hint & Hrun & _).
  done.
Qed.

Lemma manual_phase_frame clock inp sh :
  auto_refresh_interval (mode (manual_phase strip lower clock inp sh).1.1) =
    auto_refresh_interval (mode sh) ∧
  (running (mode (manual_phase strip lower clock inp sh).1.1) = true →
   running (mode sh) = true) ∧
  ((manual_phase strip lower clock inp sh).2 = Break →
   running (mode (manual_phase strip lower clock inp sh).1.1) = false).
Proof.
  unfold manual_phase. destruct inp as [line| |]; [|done..].
  repeat case_decide; done.
Qed.

Lemma run_iteration_frame turn r :
  auto_refresh_interval (mode (shared (run_iteration strip lower turn r).1)) =
    auto_refresh_interval (mode (shared r)) ∧
  (running (mode (shared (run_iteration strip lower turn r).1)) = true →
   running (mode (shared r)) = true) ∧
  ((run_iteration strip lower turn r).2 = Break →
   running (mode (shared (run_iteration strip lower turn r).1)) = false) ∧
  log r `prefix_of` log (run_iteration strip lower turn r).1.
Proof.
  unfold run_iteration.
  destruct (keyboard_input_handler_frame (turn_keys turn) (shared r))
    as (Hint & Hrun & _).
  destruct (auto_refresh _); simpl.
  - destruct (auto_refresh_phase_frame (turn_wait_keys turn) (turn_now turn)
                (keyboard_input_handler (turn_keys turn) (shared r)))
      as [Hint' Hrun'].
    split_and!; [congruence|auto|done|by apply prefix_app_r].
  - destruct (manual_phase_frame (turn_now turn) (turn_input turn)
                (keyboard_input_handler (turn_keys turn) (shared r)))
      as (Hint' & Hrun' & Hbreak).
    split_and!; [congruence|auto|done|by apply prefix_app_r].
Qed.

End LoopFacts.

(** X24: the states of the monitor that the loop of [run] goes through are
    states as above: over any number of turns the watchlist and the webhook
    stay what they were, and the observation state never holds a key that is
    not a lower-cased watchlist name. *)
Theorem run_loop_keeps_config strip lower turns r :
  reachable lower (monitor r) →
  reachable lower (monitor (run_loop strip lower turns r)) ∧
  watchlist (self (monitor (run_loop strip lower turns r))) =
    watchlist (self (monitor r)) ∧
  discord_webhook (self (monitor (run_loop strip lower turns r))) =
    discord_webhook (self (monitor r)) ∧
  dom (previous_stock (self (monitor (run_loop strip lower turns r)))) ⊆
    list_to_set (lower <$> watchlist (self (monitor r))).
Proof.
  intros Hreach.
  assert (reachable lower (monitor (run_loop strip lower turns r)) ∧
          watchlist (self (monitor (run_loop strip lower turns r))) =
            watchlist (self (monitor r)) ∧
          discord_webhook (self (monitor (run_loop strip lower turns r))) =
            discord_webhook (self (monitor r))) as (Hr & Hwl & Hwh).
  { revert r Hreach. induction turns as [|turn turns IH]; intros r Hreach;
      [done|].
    simpl. destruct (running (mode (shared r))); [|done].
    destruct (reachable_run_cycle lower (turn_get turn) (turn_post turn)
                (monitor r) Hreach) as (Hr' & Hwl' & Hwh').
    rewrite <- (monitor_run_iteration strip) in Hr', Hwl', Hwh'.
    destruct (run_iteration strip lower turn r) as [r' [|]]; simpl in *.
    - destruct (IH r' Hr') as (? & ? & ?). split_and!; [done|congruence..].
    - done. }
  split_and!; [done..|]. rewrite <- Hwl. by apply reachable_dom.
Qed.

Lemma run_loop_keeps_config_witness :
  reachable str_lower (monitor (mkRun ex_state (shared_init 0) [])) ∧
  watchlist
    (self (monitor
             (run_loop str_strip str_lower
                [mkTurn ex_get ex_post [] 10 [] (InputLine "r");
                 mkTurn ex_get_down ex_post [] 20 [(1500, "q"%char)] InputEOF]
                (mkRun ex_state (shared_init 0) [])))) = ex_watchlist.
Proof.
  assert (reachable str_lower (monitor (mkRun ex_state (shared_init 0) [])))
    as Hreach by apply reachable_init.
  split; [exact Hreach|].
  destruct (run_loop_keeps_config str_strip str_lower
              [mkTurn ex_get ex_post [] 10 [] (InputLine "r");
               mkTurn ex_get_down ex_post [] 20 [(1500, "q"%char)] InputEOF]
              _ Hreach) as (_ & -> & _).
  reflexivity.
Defined.

(** X25: over the loop the refresh interval never changes and the running
    flag, once false, stays false; a loop entered with the flag false does
    nothing; and what was logged stays. *)
Theorem run_loop_mode_frame strip lower turns r :
  auto_refresh_interval (mode (shared (run_loop strip lower turns r))) =
    auto_refresh_interval (mode (shared r)) ∧
  (running (mode (shared (run_loop strip lower turns r))) = true →
   running (mode (shared r)) = true) ∧
  (running (mode (shared r)) = false → run_loop strip lower turns r = r) ∧
  log r `prefix_of` log (run_loop strip lower turns r).
Proof.
  revert r. induction turns as [|turn turns IH]; intros r.
  - simpl. split_and!; done.
  - cbn [run_loop]. destruct (running (mode (shared r))) eqn:Hrun.
    + destruct (run_iteration_frame strip lower turn r)
        as (Hint & _ & _ & Hlog).
      destruct (run_iteration strip lower turn r) as [r' [|]];
        cbn [fst snd] in *.
      * destruct (IH r') as (Hint' & _ & _ & Hlog').
        split; [congruence|]. split; [intros _; reflexivity|].
        split; [intros Hfalse; discriminate Hfalse|].
        etrans; [exact Hlog|exact Hlog'].
      * split; [exact Hint|]. split; [intros _; reflexivity|].
        split; [intros Hfalse; discriminate Hfalse|exact Hlog].
    + split; [reflexivity|]. split; [intros Htrue; congruence|].
      split; [intros _; reflexivity|reflexivity].
Qed.

(** X26: with the input closed, manual mode never stops.  When [input()]
    raises [EOFError] in every turn and no key is pressed, each turn fetches
    the five categories again, reports an unexpected error and sleeps five
    seconds, and the run mode stays as it was, however many turns pass. *)
Theorem closed_input_polls_forever strip lower turns r :
  Forall (λ turn, turn_input turn = InputEOF ∧ turn_keys turn = []) turns →
  auto_refresh (mode (shared r)) = false →
  running (mode (shared r)) = true →
  shared (run_loop strip lower turns r) = shared r ∧
  log (run_loop strip lower turns r) =
    log r ++ (turns ≫= λ _, [Said MsgOptions; Said MsgUnexpectedError;
                               Slept 5000]) ∧
  fetches (trace (monitor (run_loop strip lower turns r))) =
    fetches (trace (monitor r)) ++ (turns ≫= λ _, fetch_url <$> categories).
Proof.
  intros Hturns. revert r.
  induction Hturns as [|turn turns [Hinput Hkeys] _ IH]; intros r Hauto Hrun.
  - simpl. by rewrite !app_nil_r.
  - cbn [run_loop]. rewrite Hrun.
    set (r1 := {| monitor := (run_cycle lower (turn_get turn) (turn_post turn)
                                (monitor r)).2;
                  shared := shared r;
                  log := log r ++ [Said MsgOptions; Said MsgUnexpectedError;
                                   Slept 5000] |}).
    assert (run_iteration strip lower turn r = (r1, Continue)) as ->.
    { unfold run_iteration. rewrite Hkeys.
      change (keyboard_input_handler [] (shared r)) with (shared r).
      rewrite Hauto. unfold manual_phase. rewrite Hinput. reflexivity. }
    destruct (IH r1 Hauto Hrun) as (Hshared & Hlog & Hfetches).
    rewrite Hshared, Hlog, Hfetches. unfold r1. cbn [monitor shared log].
    rewrite fetches_run_cycle. rewrite !bind_cons, <- !app_assoc.
    split; [reflexivity|]. split; reflexivity.
Qed.

Lemma closed_input_polls_forever_witness :
  Forall (λ turn, turn_input turn = InputEOF ∧ turn_keys turn = [])
         [mkTurn ex_get ex_post [] 10 [] InputEOF;
          mkTurn ex_get_down ex_post [] 5010 [] InputEOF] ∧
  log (run_loop str_strip str_lower
         [mkTurn ex_get ex_post [] 10 [] InputEOF;
          mkTurn ex_get_down ex_post [] 5010 [] InputEOF]
         (mkRun ex_state (shared_init 0) [])) =
    [Said MsgOptions; Said MsgUnexpectedError; Slept 5000;
     Said MsgOptions; Said MsgUnexpectedError; Slept 5000].
Proof.
  assert (Forall (λ turn, turn_input turn = InputEOF ∧ turn_keys turn = [])
            [mkTurn ex_get ex_post [] 10 [] InputEOF;
             mkTurn ex_get_down ex_post [] 5010 [] InputEOF]) as Hturns
    by (repeat (apply List.Forall_cons; [by split|]); apply List.Forall_nil).
  split; [exact Hturns|].
  destruct (closed_input_polls_forever str_strip str_lower _
              (mkRun ex_state (shared_init 0) []) Hturns eq_refl eq_refl)
    as (_ & -> & _).
  reflexivity.
Defined.

(** X27: a name that several categories list is reported under the last
    of them in the order of the fetch: with a record of the name in a
    category and none in the categories fetched after it, the detector takes
    the category from there. *)
Theorem later_category_wins lower http_get w cs1 c cs2 :
  categories = cs1 ++ c :: cs2 →
  (∃ item, item ∈ fetched (http_get (fetch_url c)) ∧
           item_key lower item = lower w) →
  (∀ c' item, c' ∈ cs2 → item ∈ fetched (http_get (fetch_url c')) →
              item_key lower item ≠ lower w) →
  current_category lower (fetched_snapshot http_get) w = c.
Proof.
  intros Hcats (item & Hitem & Hkey) Hlater.
  unfold current_category, current_data.
  rewrite lookup_build_current_stock. unfold last_match, matching.
  unfold fetched_snapshot. rewrite Hcats, fmap_app, fmap_cons.
  rewrite scan_app, scan_cons, !filter_app.
  set (entry := λ category : string,
         (category, fetched (http_get (fetch_url category)))).
  assert (filter (λ e : string * Item, item_key lower e.2 = lower w)
            (scan (entry <$> cs2)) = []) as ->.
  { destruct (filter _ _) as [|e l] eqn:Hf; [done|].
    assert (e ∈ filter (λ e : string * Item, item_key lower e.2 = lower w)
                  (scan (entry <$> cs2))) as He by (rewrite Hf; left).
    apply list_elem_of_filter in He as [Hk He]. unfold scan in He.
    apply list_elem_of_bind in He as (x & He & Hx).
    apply list_elem_of_fmap in Hx as (c' & -> & Hc').
    apply list_elem_of_fmap in He as (i & -> & Hi).
    by destruct (Hlater c' i Hc' Hi). }
  rewrite app_nil_r.
  set (here := filter (λ e : string * Item, item_key lower e.2 = lower w)
                 (pair c <$> fetched (http_get (fetch_url c)))).
  assert ((c, item) ∈ here) as Hin.
  { apply list_elem_of_filter. split; [done|]. by apply list_elem_of_fmap_2. }
  assert (∀ e, e ∈ here → e.1 = c) as Hhere.
  { intros e He. apply list_elem_of_filter in He as [_ He].
    by apply list_elem_of_fmap in He as (i & -> & _). }
  rewrite last_app. destruct (last here) as [e|] eqn:Hlast.
  - simpl. apply Hhere. apply last_Some in Hlast as [l' ->].
    apply elem_of_app. right. left.
  - apply last_None in Hlast. rewrite Hlast in Hin.
    by apply elem_of_nil in Hin.
Qed.

Lemma later_category_wins_witness :
  categories = ["seeds"%string] ++ "gear"%string
                 :: ["eggs"; "cosmetics"; "eventshop"]%string ∧
  current_category str_lower (fetched_snapshot ex_get) "TROWEL" = "gear"%string.
Proof.
  split; [reflexivity|].
  apply (later_category_wins str_lower ex_get "TROWEL" ["seeds"%string] "gear"
           ["eggs"; "cosmetics"; "eventshop"]%string eq_refl).
  - exists (mkItem (Some "Trowel"%string) (Some 2)). split; [left|reflexivity].
  - intros c' item Hc' Hitem.
    repeat (apply elem_of_cons in Hc' as [->|Hc'];
            [vm_compute in Hitem; by apply elem_of_nil in Hitem|]).
    by apply elem_of_nil in Hc'.
Defined.
